(** * KHARMA: flux computation, constrained transport and stage task list

    A shallow embedding of
      - [GRMHD::FluxCT]            (kharma/grmhd/flux_ct.cpp),
      - [LRToFlux]                 (kharma/grmhd/fluxes.hpp),
      - [HARMDriver::MakeTaskList] (the driver part of fluxes.hpp),
    with [Real] read as exact rational arithmetic. *)

From Stdlib Require Import ZArith QArith Qminmax Qabs List Lia Lqa Bool.
From Stdlib Require String.
Import ListNotations.

Open Scope Z_scope.

(** ** Data model *)

(** Exact-arithmetic reading of the C++ [Real] (a double in the source). *)
Definition Real := Q.

(** Modelled from the spec: the [prims::] index constants of decs.hpp, which
    is declared outside the files embedded here; section 6 fixes the eight components
    as density, energy, three velocities, three magnetic-field components. *)
Inductive prims : Set :=
  | rho | u | u1 | u2 | u3 | B1 | B2 | B3.

Definition prims_eqb (p q : prims) : bool :=
  match p, q with
  | rho, rho | u, u | u1, u1 | u2, u2 | u3, u3
  | B1, B1 | B2, B2 | B3, B3 => true
  | _, _ => false
  end.

(** [NPRIM] and the range of the [PLOOP] macro. *)
Definition NPRIM : Z := 8.
Definition PLOOP : list prims := [rho; u; u1; u2; u3; B1; B2; B3].

Definition is_magnetic (p : prims) : bool :=
  match p with B1 | B2 | B3 => true | _ => false end.

(** [GridScalar] is a rank-3 view indexed (k, j, i); [GridVars] a rank-4 view
    indexed (p, k, j, i).  Views are total maps here: the kernels index them
    at the loop variables and their nearest neighbours only, and the extent
    of the allocation plays no part in what they compute. *)
Definition GridScalar := Z -> Z -> Z -> Real.
Definition GridVars := prims -> Z -> Z -> Z -> Real.

Definition idx_eqb (k j i k' j' i' : Z) : bool :=
  (k' =? k) && (j' =? j) && (i' =? i).

(** [a(k, j, i) = v] *)
Definition set_scalar (a : GridScalar) (k j i : Z) (v : Real) : GridScalar :=
  fun k' j' i' => if idx_eqb k j i k' j' i' then v else a k' j' i'.

(** [a(p, k, j, i) = v] *)
Definition set_var (a : GridVars) (p : prims) (k j i : Z) (v : Real) : GridVars :=
  fun p' => if prims_eqb p' p then set_scalar (a p') k j i v else a p'.

(** A freshly constructed view: Kokkos zero-fills the allocation. *)
Definition new_GridScalar (n3 n2 n1 : Z) : GridScalar := fun _ _ _ => 0%Q.

(** ** Index shapes *)

Inductive IndexDomain : Set := entire | interior.

(** Modelled from the spec: the block's [cellbounds] (Parthenon's index
    shape, declared outside the files embedded here).  Section 3 describes a
    rectangular index space split into an interior region and a ghost
    (halo) region; here a block has [nx1 * nx2 * nx3] interior cells
    wrapped in [nghost] ghost layers on every side. *)
Record IndexShape : Set := mkShape {
  nx1 : Z; nx2 : Z; nx3 : Z; nghost : Z
}.

Definition cb_is (cb : IndexShape) (d : IndexDomain) : Z :=
  match d with entire => 0 | interior => nghost cb end.
Definition cb_ie (cb : IndexShape) (d : IndexDomain) : Z :=
  match d with
  | entire => nx1 cb + 2 * nghost cb - 1
  | interior => nghost cb + nx1 cb - 1
  end.
Definition cb_js (cb : IndexShape) (d : IndexDomain) : Z :=
  match d with entire => 0 | interior => nghost cb end.
Definition cb_je (cb : IndexShape) (d : IndexDomain) : Z :=
  match d with
  | entire => nx2 cb + 2 * nghost cb - 1
  | interior => nghost cb + nx2 cb - 1
  end.
Definition cb_ks (cb : IndexShape) (d : IndexDomain) : Z :=
  match d with entire => 0 | interior => nghost cb end.
Definition cb_ke (cb : IndexShape) (d : IndexDomain) : Z :=
  match d with
  | entire => nx3 cb + 2 * nghost cb - 1
  | interior => nghost cb + nx3 cb - 1
  end.
Definition ncellsi (cb : IndexShape) (d : IndexDomain) : Z := cb_ie cb d - cb_is cb d + 1.
Definition ncellsj (cb : IndexShape) (d : IndexDomain) : Z := cb_je cb d - cb_js cb d + 1.
Definition ncellsk (cb : IndexShape) (d : IndexDomain) : Z := cb_ke cb d - cb_ks cb d + 1.

(** An interior cell of the block. *)
Definition interior_cell (cb : IndexShape) (k j i : Z) : Prop :=
  cb_ks cb interior <= k <= cb_ke cb interior /\
  cb_js cb interior <= j <= cb_je cb interior /\
  cb_is cb interior <= i <= cb_ie cb interior.

(** ** Parallel loops *)

(** The integers [lo, lo+1, ..., hi] (empty when [hi < lo]). *)
Definition range (lo hi : Z) : list Z :=
  map (fun n => lo + Z.of_nat n) (seq 0 (Z.to_nat (hi - lo + 1))).

(** The index triples visited by [par_for(kl, ku, jl, ju, il, iu)], bounds
    inclusive. *)
Definition box (kl ku jl ju il iu : Z) : list (Z * Z * Z) :=
  flat_map (fun k =>
    flat_map (fun j => map (fun i => (k, j, i)) (range il iu)) (range jl ju))
    (range kl ku).

(** Run a kernel over a list of index triples, threading the state. *)
Definition run_kernel {S : Type} (body : Z -> Z -> Z -> S -> S)
    (cells : list (Z * Z * Z)) (s : S) : S :=
  fold_left (fun s c => let '(k, j, i) := c in body k j i s) cells s.

(** [pmb->par_for(name, kl, ku, jl, ju, il, iu, KOKKOS_LAMBDA_3D {...})]:
    one particular schedule of the parallel loop. *)
Definition par_for {S : Type} (kl ku jl ju il iu : Z)
    (body : Z -> Z -> Z -> S -> S) (s : S) : S :=
  run_kernel body (box kl ku jl ju il iu) s.

Definition in_box (kl ku jl ju il iu k j i : Z) : bool :=
  (kl <=? k) && (k <=? ku) && (jl <=? j) && (j <=? ju) && (il <=? i) && (i <=? iu).

Definition visits (cells : list (Z * Z * Z)) (k j i : Z) : bool :=
  existsb (fun c => let '(k', j', i') := c in idx_eqb k' j' i' k j i) cells.

(** ** Constrained transport: [GRMHD::FluxCT] *)

Inductive TaskStatus : Set := complete | incomplete | fail.

(** The three directional flux views of ["c.c.bulk.cons"]. *)
Record Fluxes : Type := mkFluxes {
  F1 : GridVars; F2 : GridVars; F3 : GridVars
}.

(** The three local EMF views. *)
Record EMFs : Type := mkEMFs {
  emf1 : GridScalar; emf2 : GridScalar; emf3 : GridScalar
}.

Arguments F1 _ _ (_ _ _)%_Z.
Arguments F2 _ _ (_ _ _)%_Z.
Arguments F3 _ _ (_ _ _)%_Z.
Arguments emf1 _ (_ _ _)%_Z.
Arguments emf2 _ (_ _ _)%_Z.
Arguments emf3 _ (_ _ _)%_Z.

Open Scope Q_scope.

(** Body of the ["flux_ct_emf"] kernel. *)
Definition flux_ct_emf_kernel (F : Fluxes) (k j i : Z) (e : EMFs) : EMFs :=
  let e := mkEMFs (emf1 e) (emf2 e)
    (set_scalar (emf3 e) k j i
       ( 0.25 * (F1 F B2 k j i + F1 F B2 k (j-1)%Z i
                 - F2 F B1 k j i - F2 F B1 k j (i-1)%Z))) in
  let e := mkEMFs (emf1 e)
    (set_scalar (emf2 e) k j i
       (-0.25 * (F1 F B3 k j i + F1 F B3 (k-1)%Z j i
                 - F3 F B1 k j i - F3 F B1 k j (i-1)%Z)))
    (emf3 e) in
  mkEMFs
    (set_scalar (emf1 e) k j i
       ( 0.25 * (F2 F B3 k j i + F2 F B3 (k-1)%Z j i
                 - F3 F B2 k j i - F3 F B2 k (j-1)%Z i)))
    (emf2 e) (emf3 e).

(** Body of the ["flux_ct"] kernel. *)
Definition flux_ct_kernel (e : EMFs) (k j i : Z) (F : Fluxes) : Fluxes :=
  let F := mkFluxes (set_var (F1 F) B1 k j i 0.0) (F2 F) (F3 F) in
  let F := mkFluxes (set_var (F1 F) B2 k j i
             ( 0.5 * (emf3 e k j i + emf3 e k (j+1)%Z i))) (F2 F) (F3 F) in
  let F := mkFluxes (set_var (F1 F) B3 k j i
             (-0.5 * (emf2 e k j i + emf2 e (k+1)%Z j i))) (F2 F) (F3 F) in

  let F := mkFluxes (F1 F) (set_var (F2 F) B1 k j i
             (-0.5 * (emf3 e k j i + emf3 e k j (i+1)%Z))) (F3 F) in
  let F := mkFluxes (F1 F) (set_var (F2 F) B2 k j i 0.0) (F3 F) in
  let F := mkFluxes (F1 F) (set_var (F2 F) B3 k j i
             ( 0.5 * (emf1 e k j i + emf1 e (k+1)%Z j i))) (F3 F) in

  let F := mkFluxes (F1 F) (F2 F) (set_var (F3 F) B1 k j i
             ( 0.5 * (emf2 e k j i + emf2 e k j (i+1)%Z))) in
  let F := mkFluxes (F1 F) (F2 F) (set_var (F3 F) B2 k j i
             (-0.5 * (emf1 e k j i + emf1 e k (j+1)%Z i))) in
  mkFluxes (F1 F) (F2 F) (set_var (F3 F) B3 k j i 0.0).

Close Scope Q_scope.

Open Scope Q_scope.

(** The magnetic components the rewrite kernel stores at (k, j, i). *)
Definition rewritten1 (e : EMFs) (p : prims) (k j i : Z) : Real :=
  match p with
  | B2 =>  0.5 * (emf3 e k j i + emf3 e k (j+1)%Z i)
  | B3 => -0.5 * (emf2 e k j i + emf2 e (k+1)%Z j i)
  | _ => 0.0
  end.

Definition rewritten2 (e : EMFs) (p : prims) (k j i : Z) : Real :=
  match p with
  | B1 => -0.5 * (emf3 e k j i + emf3 e k j (i+1)%Z)
  | B3 =>  0.5 * (emf1 e k j i + emf1 e (k+1)%Z j i)
  | _ => 0.0
  end.

Definition rewritten3 (e : EMFs) (p : prims) (k j i : Z) : Real :=
  match p with
  | B1 =>  0.5 * (emf2 e k j i + emf2 e k j (i+1)%Z)
  | B2 => -0.5 * (emf1 e k j i + emf1 e k (j+1)%Z i)
  | _ => 0.0
  end.

Close Scope Q_scope.

(** First pass: allocate the EMFs and fill them from the fluxes. *)
Definition flux_ct_emf_pass (cb : IndexShape) (F : Fluxes) : EMFs :=
  let n1 := ncellsi cb entire in
  let n2 := ncellsj cb entire in
  let n3 := ncellsk cb entire in
  let e0 := mkEMFs (new_GridScalar n3 n2 n1) (new_GridScalar n3 n2 n1)
                   (new_GridScalar n3 n2 n1) in
  let domain := entire in
  let is_ := cb_is cb domain in let ie := cb_ie cb domain in
  let js := cb_js cb domain in let je := cb_je cb domain in
  let ks := cb_ks cb domain in let ke := cb_ke cb domain in
  par_for (ks+1) ke (js+1) je (is_+1) ie (flux_ct_emf_kernel F) e0.

(** Second pass: rewrite the magnetic fluxes from the EMFs. *)
Definition flux_ct_rewrite_pass (cb : IndexShape) (e : EMFs) (F : Fluxes) : Fluxes :=
  let domain := entire in
  let is_ := cb_is cb domain in let ie := cb_ie cb domain in
  let js := cb_js cb domain in let je := cb_je cb domain in
  let ks := cb_ks cb domain in let ke := cb_ke cb domain in
  par_for ks (ke-1) js (je-1) is_ (ie-1) (flux_ct_kernel e) F.

Definition FluxCT (cb : IndexShape) (rc : Fluxes) : TaskStatus * Fluxes :=
  let e := flux_ct_emf_pass cb rc in
  (complete, flux_ct_rewrite_pass cb e rc).

(** The fluxes held by the container once [FluxCT] has returned. *)
Definition FluxCT_fluxes (cb : IndexShape) (rc : Fluxes) : Fluxes :=
  snd (FluxCT cb rc).

(** The cells the rewrite kernel visits: the whole block but its last layer
    in each direction. *)
Definition rewritten_cell (cb : IndexShape) (k j i : Z) : bool :=
  in_box (cb_ks cb entire) (cb_ke cb entire - 1)
         (cb_js cb entire) (cb_je cb entire - 1)
         (cb_is cb entire) (cb_ie cb entire - 1) k j i.

(** The cells the EMF kernel visits: the whole block but its first layer in
    each direction. *)
Definition emf_cell (cb : IndexShape) (k j i : Z) : bool :=
  in_box (cb_ks cb entire + 1) (cb_ke cb entire)
         (cb_js cb entire + 1) (cb_je cb entire)
         (cb_is cb entire + 1) (cb_ie cb entire) k j i.

(** ** Discrete divergence operators *)

Open Scope Q_scope.

(** Modelled from the spec: the flux-divergence update of section 4.4
    ([Update::FluxDivergence], defined outside the files embedded here): the rate of
    change of component [p] in cell (k, j, i) is minus the signed sum of the
    fluxes through the six faces of the cell, each direction weighted by its
    area-to-volume factor [w1], [w2], [w3]. *)
Definition flux_divergence (w1 w2 w3 : Real) (F : Fluxes) : GridVars :=
  fun p k j i =>
    - (  w1 * (F1 F p k j (i+1)%Z - F1 F p k j i)
       + w2 * (F2 F p k (j+1)%Z i - F2 F p k j i)
       + w3 * (F3 F p (k+1)%Z j i - F3 F p k j i)).

(** Modelled from the spec: the discrete divergence of the cell-centred
    magnetic field whose preservation is the invariant of section 3 (the
    diagnostic itself is defined outside the files embedded here).  For Toth's
    flux-CT on cell-centred fields it is the divergence taken at the lower
    corner of cell (k, j, i): differences across the corner averaged over
    the four cells on either side. *)
Definition divB (w1 w2 w3 : Real) (P : GridVars) (k j i : Z) : Real :=
    0.25 * w1 *
      (  P B1 k j i + P B1 k (j-1)%Z i
       + P B1 (k-1)%Z j i + P B1 (k-1)%Z (j-1)%Z i
       - P B1 k j (i-1)%Z - P B1 k (j-1)%Z (i-1)%Z
       - P B1 (k-1)%Z j (i-1)%Z - P B1 (k-1)%Z (j-1)%Z (i-1)%Z)
  + 0.25 * w2 *
      (  P B2 k j i + P B2 k j (i-1)%Z
       + P B2 (k-1)%Z j i + P B2 (k-1)%Z j (i-1)%Z
       - P B2 k (j-1)%Z i - P B2 k (j-1)%Z (i-1)%Z
       - P B2 (k-1)%Z (j-1)%Z i - P B2 (k-1)%Z (j-1)%Z (i-1)%Z)
  + 0.25 * w3 *
      (  P B3 k j i + P B3 k j (i-1)%Z
       + P B3 k (j-1)%Z i + P B3 k (j-1)%Z (i-1)%Z
       - P B3 (k-1)%Z j i - P B3 (k-1)%Z j (i-1)%Z
       - P B3 (k-1)%Z (j-1)%Z i - P B3 (k-1)%Z (j-1)%Z (i-1)%Z).

(** One explicit update of the cell-centred state by the flux divergence. *)
Definition apply_flux_divergence (dt w1 w2 w3 : Real) (F : Fluxes)
    (P : GridVars) : GridVars :=
  fun p k j i => P p k j i + dt * flux_divergence w1 w2 w3 F p k j i.

(** The signed sum, over the six faces of cell (k, j, i), of the magnetic
    flux component normal to each face. *)
Definition normal_flux_sum (w1 w2 w3 : Real) (F : Fluxes) (k j i : Z) : Real :=
    w1 * (F1 F B1 k j (i+1)%Z - F1 F B1 k j i)
  + w2 * (F2 F B2 k (j+1)%Z i - F2 F B2 k j i)
  + w3 * (F3 F B3 (k+1)%Z j i - F3 F B3 k j i).

Close Scope Q_scope.

(** ** Local Lax-Friedrichs fluxes: [LRToFlux] *)

Inductive Loci : Set := face1 | face2 | face3 | center | corner.

(** What [LRToFlux] writes: the [flux] view it is handed and the
    ["f.f.bulk.ctop"] face data, indexed (dir, k, j, i). *)
Record FluxState : Type := mkFluxState {
  flux : GridVars;
  ctop : Z -> GridScalar
}.

Arguments flux _ _ (_ _ _)%_Z.
Arguments ctop _ (_ _ _ _)%_Z.

Definition set_ctop (c : Z -> GridScalar) (dir k j i : Z) (v : Real) : Z -> GridScalar :=
  fun d => if d =? dir then set_scalar (c d) k j i v else c d.

(** The first [switch (dir)]: the locus of the faces of direction [dir];
    no case is taken for any other tag. *)
Definition face_of_dir (dir : Z) : option Loci :=
  match dir with
  | 1 => Some face1
  | 2 => Some face2
  | 3 => Some face3
  | _ => None
  end.

(** The second [switch (dir)]: the zone to the left of face (k, j, i). *)
Definition left_of_face (dir k j i : Z) : option (Z * Z * Z) :=
  match dir with
  | 1 => Some (k, j, i - 1)
  | 2 => Some (k, j - 1, i)
  | 3 => Some (k - 1, j, i)
  | _ => None
  end.

(** The blending speed of one face from the four one-sided speeds. *)
Definition ctop_of (cmaxL cminL cmaxR cminR : Real) : Real :=
  let cmax := Qabs (Qmax (Qmax 0.0 cmaxL) cmaxR) in
  let cmin := Qabs (Qmax (Qmax 0.0 (- cminL)) (- cminR)) in
  Qmax cmax cmin.


(** ** The stage task list: [HARMDriver::MakeTaskList] *)

Module HARMDriver.

Open Scope N_scope.

(** A [TaskID] is a bit set: task number [n >= 1] owns bit [n - 1],
    [TaskID(0)] is the empty set and [|] is the union.  (The task
    machinery belongs to the mesh framework; this is its interface as the
    driver uses it.) *)
Definition TaskID := N.

Definition TaskID_of (n : N) : TaskID :=
  match n with
  | 0 => 0
  | _ => N.shiftl 1 (n - 1)
  end.

(** [dep] is satisfied once every task in it is in [done]. *)
Definition CheckDependencies (done dep : TaskID) : bool :=
  N.land done dep =? dep.

(** The functions the driver schedules. *)
Inductive TaskFunc : Set :=
  | Container_StartReceivingTask
  | GRMHD_CalculateFlux1
  | GRMHD_CalculateFlux2
  | GRMHD_CalculateFlux3
  | GRMHD_FluxCT
  | Container_SendFluxCorrectionTask
  | Container_ReceiveFluxCorrectionTask
  | Update_FluxDivergence
  | GRMHD_SourceTerm
  | UpdateContainer
  | Container_SendBoundaryBuffersTask
  | Container_ReceiveBoundaryBuffersTask
  | Container_SetBoundariesTask
  | Container_ClearBoundaryTask
  | ProlongateBoundaries
  | ApplyBoundaryConditions
  | ApplyCustomBoundaries
  | FillDerived
  | SetBlockTimestep
  | CheckRefinementCondition.

Definition TaskFunc_eqb (f g : TaskFunc) : bool :=
  match f, g with
  | Container_StartReceivingTask, Container_StartReceivingTask
  | GRMHD_CalculateFlux1, GRMHD_CalculateFlux1
  | GRMHD_CalculateFlux2, GRMHD_CalculateFlux2
  | GRMHD_CalculateFlux3, GRMHD_CalculateFlux3
  | GRMHD_FluxCT, GRMHD_FluxCT
  | Container_SendFluxCorrectionTask, Container_SendFluxCorrectionTask
  | Container_ReceiveFluxCorrectionTask, Container_ReceiveFluxCorrectionTask
  | Update_FluxDivergence, Update_FluxDivergence
  | GRMHD_SourceTerm, GRMHD_SourceTerm
  | UpdateContainer, UpdateContainer
  | Container_SendBoundaryBuffersTask, Container_SendBoundaryBuffersTask
  | Container_ReceiveBoundaryBuffersTask, Container_ReceiveBoundaryBuffersTask
  | Container_SetBoundariesTask, Container_SetBoundariesTask
  | Container_ClearBoundaryTask, Container_ClearBoundaryTask
  | ProlongateBoundaries, ProlongateBoundaries
  | ApplyBoundaryConditions, ApplyBoundaryConditions
  | ApplyCustomBoundaries, ApplyCustomBoundaries
  | FillDerived, FillDerived
  | SetBlockTimestep, SetBlockTimestep
  | CheckRefinementCondition, CheckRefinementCondition => true
  | _, _ => false
  end.

(** What a task is handed: the stage containers or the block. *)
Inductive TaskArg : Set := sc0 | sc1 | dudt | pmb.

Record Task : Set := mkTask {
  task_id : TaskID;
  task_dep : TaskID;
  task_func : TaskFunc;
  task_args : list TaskArg
}.

Definition TaskList := list Task.

(** Building a task list threads the list through the [AddTask] calls. *)
Definition Build (A : Type) : Type := TaskList -> A * TaskList.

Definition ret {A : Type} (a : A) : Build A := fun tl => (a, tl).

Definition bind {A B : Type} (m : Build A) (f : A -> Build B) : Build B :=
  fun tl => let '(a, tl') := m tl in f a tl'.

Notation "'auto' x '<-' m ';;' k" := (bind m (fun x => k))
  (at level 61, x name, m at next level, right associativity).

(** [tl.AddTask(func, dep, args...)]: the new task takes the next number
    and is appended. *)
Definition AddTask (func : TaskFunc) (dep : TaskID) (args : list TaskArg)
    : Build TaskID :=
  fun tl =>
    let id := TaskID_of (N.of_nat (length tl) + 1) in
    (id, tl ++ [mkTask id dep func args]).

(** The task list of one stage.  (Before adding any task the source
    registers the stage containers when [stage == 1]; that touches the
    block's containers, not the list.) *)
Definition MakeTaskList (nstages : Z) (adaptive : bool) (stage : Z) : TaskList :=
  let none := TaskID_of 0 in
  snd ((
    auto t_start_recv <- AddTask Container_StartReceivingTask none [sc1] ;;

    auto t_calculate_flux1 <- AddTask GRMHD_CalculateFlux1 t_start_recv [sc0] ;;
    auto t_calculate_flux2 <- AddTask GRMHD_CalculateFlux2 t_start_recv [sc0] ;;
    auto t_calculate_flux3 <- AddTask GRMHD_CalculateFlux3 t_start_recv [sc0] ;;
    let t_calculate_flux :=
      N.lor (N.lor t_calculate_flux1 t_calculate_flux2) t_calculate_flux3 in

    auto t_flux_ct <- AddTask GRMHD_FluxCT t_calculate_flux [sc0] ;;

    auto t_send_flux <- AddTask Container_SendFluxCorrectionTask t_flux_ct [sc0] ;;
    auto t_recv_flux <- AddTask Container_ReceiveFluxCorrectionTask t_flux_ct [sc0] ;;

    auto t_flux_divergence <- AddTask Update_FluxDivergence t_recv_flux [sc0; dudt] ;;
    auto t_source_term <- AddTask GRMHD_SourceTerm t_flux_divergence [sc0; dudt] ;;
    auto t_update_container <- AddTask UpdateContainer t_source_term [pmb] ;;

    auto t_send <- AddTask Container_SendBoundaryBuffersTask t_update_container [sc1] ;;
    auto t_recv <- AddTask Container_ReceiveBoundaryBuffersTask t_update_container [sc1] ;;
    auto t_fill_from_bufs <- AddTask Container_SetBoundariesTask t_recv [sc1] ;;
    auto t_clear_comm_flags <- AddTask Container_ClearBoundaryTask t_fill_from_bufs [sc1] ;;

    auto t_prolong_bound <- AddTask ProlongateBoundaries t_fill_from_bufs [pmb] ;;

    auto t_set_parthenon_bc <- AddTask ApplyBoundaryConditions t_prolong_bound [sc1] ;;
    auto t_set_custom_bc <- AddTask ApplyCustomBoundaries t_set_parthenon_bc [sc1] ;;

    auto t_fill_derived <- AddTask FillDerived t_set_custom_bc [sc1] ;;

    if (stage =? nstages)%Z then
      auto new_dt <- AddTask SetBlockTimestep t_fill_derived [sc1] ;;
      if adaptive then
        auto tag_refine <- AddTask CheckRefinementCondition t_fill_derived [pmb] ;;
        ret tt
      else ret tt
    else ret tt) []).

(** *** Reading the dependency graph *)

Definition subset (a b : TaskID) : bool := N.land a b =? a.

(** The tasks of the list that run function [f]. *)
Definition tasks_of (tl : TaskList) (f : TaskFunc) : list Task :=
  filter (fun t => TaskFunc_eqb (task_func t) f) tl.

(** The identifiers of the tasks running [f], as one set. *)
Definition ids_of (tl : TaskList) (f : TaskFunc) : TaskID :=
  fold_left (fun acc t => N.lor acc (task_id t)) (tasks_of tl f) 0.

(** The declared dependency of the task(s) running [f]. *)
Definition dep_of (tl : TaskList) (f : TaskFunc) : TaskID :=
  fold_left (fun acc t => N.lor acc (task_dep t)) (tasks_of tl f) 0.

(** Everything a dependency set [dep] transitively waits for, given the
    tasks added before (dependencies always name earlier tasks). *)
Definition close_dep (earlier : list (TaskID * TaskID)) (dep : TaskID) : TaskID :=
  fold_left
    (fun acc e => if subset (fst e) dep then N.lor acc (snd e) else acc)
    earlier dep.

Fixpoint ancestors_from (earlier : list (TaskID * TaskID)) (tl : TaskList)
    : list (TaskID * TaskID) :=
  match tl with
  | [] => earlier
  | t :: tl' =>
      ancestors_from (earlier ++ [(task_id t, close_dep earlier (task_dep t))]) tl'
  end.

(** For every task: its identifier and the set of all tasks that must
    have completed before it may start. *)
Definition ancestors (tl : TaskList) : list (TaskID * TaskID) :=
  ancestors_from [] tl.

(** [sequenced_after tl g f]: there is a task running [g], there is one
    running [f], and every task running [g] transitively waits for every
    task running [f]. *)
Definition sequenced_after (tl : TaskList) (g f : TaskFunc) : bool :=
  negb (ids_of tl f =? 0) && negb (ids_of tl g =? 0) &&
  forallb
    (fun e => negb (subset (fst e) (ids_of tl g)) || subset (ids_of tl f) (snd e))
    (ancestors tl).

(** [independent tl f g]: neither waits for the other. *)
Definition independent (tl : TaskList) (f g : TaskFunc) : bool :=
  forallb
    (fun e =>
       (negb (subset (fst e) (ids_of tl g)) || (N.land (ids_of tl f) (snd e) =? 0)) &&
       (negb (subset (fst e) (ids_of tl f)) || (N.land (ids_of tl g) (snd e) =? 0)))
    (ancestors tl).

(** *** Running a task list *)

(** The tasks are run one at a time in any order in which each task starts
    only after its dependencies have completed; [done] collects the
    identifiers of the completed tasks, the trace lists them in order. *)
Inductive runs (tl : TaskList) : TaskID -> list Task -> Prop :=
  | runs_start : runs tl 0 []
  | runs_step : forall done trace t,
      runs tl done trace ->
      In t tl ->
      N.land done (task_id t) = 0 ->
      CheckDependencies done (task_dep t) = true ->
      runs tl (N.lor done (task_id t)) (trace ++ [t]).

(** In a trace, every task running [g] comes after some task running
    [f]. *)
Definition ran_before (trace : list Task) (f g : TaskFunc) : Prop :=
  forall pre t post,
    trace = pre ++ t :: post -> task_func t = g ->
    exists t', In t' pre /\ task_func t' = f.

(** Every task running [g] names a task running [f] in its dependency. *)
Definition depends_directly (tl : TaskList) (g f : TaskFunc) : bool :=
  forallb
    (fun t =>
       negb (TaskFunc_eqb (task_func t) g) ||
       existsb
         (fun d => TaskFunc_eqb (task_func d) f && subset (task_id d) (task_dep t))
         tl)
    tl.

Definition Task_eq_dec (t t' : Task) : {t = t'} + {t <> t'}.
Proof.
  decide equality.
  - apply (list_eq_dec (fun a b : TaskArg => ltac:(decide equality))).
  - decide equality.
  - apply N.eq_dec.
  - apply N.eq_dec.
Defined.

(** Identifiers are non-empty and distinct tasks share no bit. *)
Definition distinct_ids (tl : TaskList) : bool :=
  forallb
    (fun t =>
       negb (task_id t =? 0) &&
       forallb
         (fun t' =>
            (if Task_eq_dec t t' then true else false) ||
            (N.land (task_id t) (task_id t') =? 0))
         tl)
    tl.

(** Run the tasks of [todo] in the order given, each only if it has not
    run and its dependency is satisfied. *)
Fixpoint run_in_order (done : TaskID) (todo : list Task) : option TaskID :=
  match todo with
  | [] => Some done
  | t :: todo' =>
      if (N.land done (task_id t) =? 0) && CheckDependencies done (task_dep t)
      then run_in_order (N.lor done (task_id t)) todo'
      else None
  end.

Close Scope N_scope.

End HARMDriver.

(** The physics and geometry layer (phys.hpp, gr_coordinates.hpp, eos.hpp)
    is defined outside the files embedded here; [LRToFlux] is embedded over
    arbitrary implementations of the routines it calls:
    - [get_state(G, P, k, j, i, loc, D)] fills [D];
    - [prim_to_flux(G, P, D, eos, k, j, i, loc, dir, flux)] fills [flux],
      and [dir == 0] gives the conserved variables;
    - [mhd_vchar(G, P, D, eos, k, j, i, loc, dir, cmax, cmin)] fills the
      pair [(cmax, cmin)]. *)
Record PhysicsLayer : Type := mkPhysics {
  GRCoordinates : Type;
  EOS : Type;
  FourVectors : Type;
  CreateEOS : Real -> EOS;
  get_state :
    GRCoordinates -> GridVars -> Z -> Z -> Z -> Loci -> FourVectors;
  prim_to_flux :
    GRCoordinates -> GridVars -> FourVectors -> EOS ->
    Z -> Z -> Z -> Loci -> Z -> prims -> Real;
  mhd_vchar :
    GRCoordinates -> GridVars -> FourVectors -> EOS ->
    Z -> Z -> Z -> Loci -> Z -> Real * Real
}.

(** Locals that no [case] of a [switch] assigns keep whatever value they
    happen to hold: [loc] once per call, [kl, jl, il] once per zone. *)
Record Indeterminate : Set := mkIndeterminate {
  indeterminate_loc : Loci;
  indeterminate_left : Z -> Z -> Z -> Z * Z * Z
}.

Section LocalFluxSolver.

Context (phys : PhysicsLayer) (junk : Indeterminate).

Definition loc_after_switch (dir : Z) : Loci :=
  match face_of_dir dir with
  | Some l => l
  | None => indeterminate_loc junk
  end.

Definition left_after_switch (dir k j i : Z) : Z * Z * Z :=
  match left_of_face dir k j i with
  | Some c => c
  | None => indeterminate_left junk k j i
  end.

(** Body of the ["uber_flux"] kernel. *)
Definition uber_flux_kernel (G : GRCoordinates phys) (eos : EOS phys)
    (pl pr : GridVars) (dir : Z) (loc : Loci)
    (k j i : Z) (s : FluxState) : FluxState :=
  let '(kl, jl, il) := left_after_switch dir k j i in
  (* Left *)
  let Dtmp := get_state phys G pl kl jl il loc in
  let Ul := prim_to_flux phys G pl Dtmp eos kl jl il loc 0 in
  let fluxL := prim_to_flux phys G pl Dtmp eos kl jl il loc dir in
  let '(cmaxL, cminL) := mhd_vchar phys G pl Dtmp eos kl jl il loc dir in
  (* Right *)
  let Dtmp := get_state phys G pr k j i loc in
  let Ur := prim_to_flux phys G pr Dtmp eos k j i loc 0 in
  let fluxR := prim_to_flux phys G pr Dtmp eos k j i loc dir in
  let '(cmaxR, cminR) := mhd_vchar phys G pr Dtmp eos k j i loc dir in
  let ctop_loc := ctop_of cmaxL cminL cmaxR cminR in
  let s := mkFluxState (flux s) (set_ctop (ctop s) dir k j i ctop_loc) in
  fold_left
    (fun s p =>
       mkFluxState
         (set_var (flux s) p k j i
            (0.5 * (fluxL p + fluxR p - ctop_loc * (Ur p - Ul p)))%Q)
         (ctop s))
    PLOOP s.

Definition LRToFlux (cb : IndexShape) (G : GRCoordinates phys) (gamma : Real)
    (pl pr : GridVars) (dir : Z) (s : FluxState) : FluxState :=
  let domain := interior in
  let is_ := cb_is cb domain in let ie := cb_ie cb domain in
  let js := cb_js cb domain in let je := cb_je cb domain in
  let ks := cb_ks cb domain in let ke := cb_ke cb domain in
  let eos := CreateEOS phys gamma in
  let loc := loc_after_switch dir in
  par_for (ks-1) (ke+1) (js-1) (je+1) (is_-1) (ie+1)
    (uber_flux_kernel G eos pl pr dir loc) s.

(** The blending speed and the flux component the kernel computes for
    face (k, j, i), with the left zone (kl, jl, il) made explicit. *)
Definition face_ctop (G : GRCoordinates phys) (eos : EOS phys)
    (pl pr : GridVars) (dir : Z) (loc : Loci)
    (kl jl il k j i : Z) : Real :=
  let vL := mhd_vchar phys G pl (get_state phys G pl kl jl il loc) eos kl jl il loc dir in
  let vR := mhd_vchar phys G pr (get_state phys G pr k j i loc) eos k j i loc dir in
  ctop_of (fst vL) (snd vL) (fst vR) (snd vR).

Definition face_flux (G : GRCoordinates phys) (eos : EOS phys)
    (pl pr : GridVars) (dir : Z) (loc : Loci)
    (kl jl il k j i : Z) (p : prims) : Real :=
  let Dl := get_state phys G pl kl jl il loc in
  let Dr := get_state phys G pr k j i loc in
  (0.5 * (  prim_to_flux phys G pl Dl eos kl jl il loc dir p
          + prim_to_flux phys G pr Dr eos k j i loc dir p
          - face_ctop G eos pl pr dir loc kl jl il k j i
            * (  prim_to_flux phys G pr Dr eos k j i loc 0 p
               - prim_to_flux phys G pl Dl eos kl jl il loc 0 p)))%Q.

(** What the kernel stores for face (k, j, i): the two values above at the
    left zone the second [switch] leaves in [kl, jl, il]. *)
Definition stored_ctop (G : GRCoordinates phys) (eos : EOS phys)
    (pl pr : GridVars) (dir : Z) (loc : Loci) (k j i : Z) : Real :=
  let c := left_after_switch dir k j i in
  face_ctop G eos pl pr dir loc (fst (fst c)) (snd (fst c)) (snd c) k j i.

Definition stored_flux (G : GRCoordinates phys) (eos : EOS phys)
    (pl pr : GridVars) (dir : Z) (loc : Loci) (p : prims) (k j i : Z) : Real :=
  let c := left_after_switch dir k j i in
  face_flux G eos pl pr dir loc (fst (fst c)) (snd (fst c)) (snd c) k j i p.

End LocalFluxSolver.

(** The faces [LRToFlux] visits: the interior widened by one zone on every
    side. *)
Definition halo_face (cb : IndexShape) (k j i : Z) : bool :=
  in_box (cb_ks cb interior - 1) (cb_ke cb interior + 1)
         (cb_js cb interior - 1) (cb_je cb interior + 1)
         (cb_is cb interior - 1) (cb_ie cb interior + 1) k j i.

(** A physics layer whose conserved variables and fluxes depend on the
    primitive values of the zone only, not on where the zone is. *)
Definition position_independent (phys : PhysicsLayer) : Prop :=
  forall (G : GRCoordinates phys) (eos : EOS phys) (P P' : GridVars)
         (k j i k' j' i' : Z) (loc : Loci) (dir : Z) (q : prims),
    (forall p, P p k j i = P' p k' j' i') ->
    prim_to_flux phys G P (get_state phys G P k j i loc) eos k j i loc dir q =
    prim_to_flux phys G P' (get_state phys G P' k' j' i' loc) eos k' j' i' loc dir q.

(** ** A small block for concrete checks *)

(** Two interior cells in each direction inside two ghost layers: a
    6 x 6 x 6 block. *)
Definition sample_block : IndexShape := mkShape 2 2 2 2.

Definition prim_index (p : prims) : Z :=
  match p with
  | rho => 0 | u => 1 | u1 => 2 | u2 => 3 | u3 => 4
  | B1 => 5 | B2 => 6 | B3 => 7
  end.

(** Three flux fields with no structure in common. *)
Definition sample_fluxes : Fluxes :=
  mkFluxes
    (fun p k j i => inject_Z (prim_index p * i * i + 3 * j * k + k + 1))
    (fun p k j i => inject_Z (j * j * k - prim_index p * i + 2 * j))
    (fun p k j i => inject_Z (i * j + 5 * k * k - prim_index p * k * j)).

(** A toy physics layer over a position-independent geometry: the state
    at a zone is its primitive vector, the flux in direction [dir] is
    [dir] times the conserved vector, the signal speeds are symmetric. *)
Definition sample_physics : PhysicsLayer :=
  mkPhysics unit Real (prims -> Real)
    (fun gamma => gamma)
    (fun _ P k j i _ => fun p => P p k j i)
    (fun _ _ D eos _ _ _ _ dir p =>
       if dir =? 0 then (eos * D p)%Q else (inject_Z dir * eos * D p)%Q)
    (fun _ _ D _ _ _ _ _ _ => ((Qabs (D u1) + 1)%Q, (- (Qabs (D u1) + 1))%Q)).


Definition sample_junk : Indeterminate :=
  mkIndeterminate center (fun k j i => (k, j, i)).

Definition sample_pl : GridVars :=
  fun p k j i => inject_Z (prim_index p + 2 * k - j + 3 * i).
Definition sample_pr : GridVars :=
  fun p k j i => inject_Z (prim_index p * k + j - i).
Definition uniform_prims : GridVars :=
  fun p _ _ _ => inject_Z (prim_index p + 1).

Definition sample_state : FluxState :=
  mkFluxState (fun _ _ _ _ => 7%Q) (fun _ _ _ _ => 9%Q).

(** ** Flux sets used to state further properties *)

(** The flux set [a * F + b * G], location by location. *)
Definition Fluxes_lincomb (a b : Real) (F G : Fluxes) : Fluxes :=
  mkFluxes
    (fun p k j i => (a * F1 F p k j i + b * F1 G p k j i)%Q)
    (fun p k j i => (a * F2 F p k j i + b * F2 G p k j i)%Q)
    (fun p k j i => (a * F3 F p k j i + b * F3 G p k j i)%Q).

(** A block with a single layer of cells in direction 3 and no ghost
    layer. *)
Definition flat_block : IndexShape := mkShape 4 4 1 0.

(** The same magnetic fluxes at every face, antisymmetric between
    directions: F1(B2) = -F2(B1) = 3, F1(B3) = -F3(B1) = 5,
    F2(B3) = -F3(B2) = 7. *)
Definition uniform_fluxes : Fluxes :=
  mkFluxes
    (fun p _ _ _ => match p with B2 => 3%Q | B3 => 5%Q | _ => 0%Q end)
    (fun p _ _ _ => match p with B1 => (-3)%Q | B3 => 7%Q | _ => 0%Q end)
    (fun p _ _ _ => match p with B1 => (-5)%Q | B2 => (-7)%Q | _ => 0%Q end).

(** [sample_fluxes] on the faces [LRToFlux] visits, something else
    everywhere beyond. *)
Definition sample_fluxes_stale : Fluxes :=
  mkFluxes
    (fun p k j i =>
       if halo_face sample_block k j i then F1 sample_fluxes p k j i else 1000%Q)
    (fun p k j i =>
       if halo_face sample_block k j i then F2 sample_fluxes p k j i else 2000%Q)
    (fun p k j i =>
       if halo_face sample_block k j i then F3 sample_fluxes p k j i else 3000%Q).

Definition stale_state : FluxState :=
  mkFluxState (fun _ _ _ _ => 1000%Q) (fun _ _ _ _ => 2000%Q).

(** ** Package selection: [ParthenonManager::ProcessPackages] *)

Module ParthenonManager.

Import String.
Local Open Scope string_scope.

Section Packages.

(** The parameter input and the package descriptor belong to the mesh
    framework and to the GRMHD package; [ProcessPackages] is embedded over
    arbitrary implementations of the two routines it calls, each of which
    may update the parameter input it is handed. *)
Variable ParameterInput : Type.
Variable StateDescriptor : Type.
(** [pin->GetOrAddBoolean(block, name, default)] *)
Variable GetOrAddBoolean :
  string -> string -> bool -> ParameterInput -> bool * ParameterInput.
(** [GRMHD::Initialize(pin.get())] *)
Variable Initialize : ParameterInput -> StateDescriptor * ParameterInput.

(** [Packages_t]: package descriptors by name. *)
Definition Packages_t : Type := list (string * StateDescriptor).

Definition ProcessPackages (pin : ParameterInput) : Packages_t * ParameterInput :=
  let packages : Packages_t := [] in
  let '(do_grmhd, pin) := GetOrAddBoolean "Packages" "GRMHD" true pin in
  let '(do_grhd, pin) := GetOrAddBoolean "Packages" "GRHD" false pin in
  let '(do_electrons, pin) := GetOrAddBoolean "Packages" "howes_electrons" false pin in
  let '(do_scalars, pin) := GetOrAddBoolean "Packages" "scalars" false pin in
  if do_grmhd then
    let '(pkg, pin) := Initialize pin in
    (("GRMHD", pkg) :: packages, pin)
  else if do_grhd then
    (packages, pin)
  else
    (packages, pin).

End Packages.

(** A parameter input kept as a list of (block, name, value) entries, for
    concrete checks: a lookup that fails appends the default. *)
Definition sample_ParameterInput : Type := list (string * string * bool).

Fixpoint sample_lookup (block name : string) (pin : sample_ParameterInput)
    : option bool :=
  match pin with
  | [] => None
  | (b, n, v) :: pin' =>
      if String.eqb b block && String.eqb n name then Some v
      else sample_lookup block name pin'
  end.

Definition sample_GetOrAddBoolean (block name : string) (def : bool)
    (pin : sample_ParameterInput) : bool * sample_ParameterInput :=
  match sample_lookup block name pin with
  | Some v => (v, pin)
  | None => (def, (pin ++ [(block, name, def)])%list)
  end.

Definition sample_Initialize (pin : sample_ParameterInput)
    : nat * sample_ParameterInput :=
  (List.length pin, pin).

End ParthenonManager.

(** * Properties *)

(** ** Parallel loops write cell by cell *)

Lemma In_range (lo hi x : Z) : In x (range lo hi) <-> lo <= x <= hi.
Proof.
  unfold range. rewrite in_map_iff. split.
  - intros [n [<- Hn]]. apply in_seq in Hn. lia.
  - intros H. exists (Z.to_nat (x - lo)). split; [lia|].
    apply in_seq. lia.
Qed.

Lemma In_box (kl ku jl ju il iu k j i : Z) :
  In (k, j, i) (box kl ku jl ju il iu) <->
  kl <= k <= ku /\ jl <= j <= ju /\ il <= i <= iu.
Proof.
  unfold box. rewrite in_flat_map. split.
  - intros [k' [Hk H]]. apply in_flat_map in H. destruct H as [j' [Hj H]].
    apply in_map_iff in H. destruct H as [i' [E Hi]].
    inversion E; subst. rewrite In_range in Hk, Hj, Hi. auto.
  - intros (Hk & Hj & Hi). exists k. split; [now apply In_range|].
    apply in_flat_map. exists j. split; [now apply In_range|].
    apply in_map. now apply In_range.
Qed.

Lemma idx_eqb_true (k j i k' j' i' : Z) :
  idx_eqb k j i k' j' i' = true <-> k' = k /\ j' = j /\ i' = i.
Proof.
  unfold idx_eqb. rewrite !andb_true_iff, !Z.eqb_eq. tauto.
Qed.

Lemma visits_In (cells : list (Z * Z * Z)) (k j i : Z) :
  visits cells k j i = true <-> In (k, j, i) cells.
Proof.
  unfold visits. rewrite existsb_exists. split.
  - intros [[[k' j'] i'] [Hin E]]. apply idx_eqb_true in E.
    destruct E as (-> & -> & ->). exact Hin.
  - intros Hin. exists (k, j, i). split; [exact Hin|].
    apply idx_eqb_true. auto.
Qed.

Lemma in_box_true (kl ku jl ju il iu k j i : Z) :
  in_box kl ku jl ju il iu k j i = true <->
  kl <= k <= ku /\ jl <= j <= ju /\ il <= i <= iu.
Proof.
  unfold in_box. rewrite !andb_true_iff, !Z.leb_le. tauto.
Qed.

Lemma visits_box (kl ku jl ju il iu k j i : Z) :
  visits (box kl ku jl ju il iu) k j i = in_box kl ku jl ju il iu k j i.
Proof.
  apply eq_true_iff_eq. rewrite visits_In, In_box, in_box_true. tauto.
Qed.

Section CellwiseKernels.

Context {S : Type}.
Variable body : Z -> Z -> Z -> S -> S.
Variable get : S -> GridScalar.

(** A kernel that stores, at its own index, a value that does not depend
    on the state it threads. *)
Lemma run_kernel_writes (v : Z -> Z -> Z -> Real) :
  (forall k j i s k' j' i',
      get (body k j i s) k' j' i' = set_scalar (get s) k j i (v k j i) k' j' i') ->
  forall cells s k j i,
    get (run_kernel body cells s) k j i =
    if visits cells k j i then v k j i else get s k j i.
Proof.
  intros Hbody cells. unfold run_kernel.
  induction cells as [|[[kc jc] ic] cells IH]; intros s k j i; simpl.
  - reflexivity.
  - rewrite IH, Hbody. unfold set_scalar.
    destruct (idx_eqb kc jc ic k j i) eqn:E; simpl.
    + apply idx_eqb_true in E. destruct E as (-> & -> & ->).
      now destruct (visits cells kc jc ic).
    + reflexivity.
Qed.

(** A kernel that leaves a view alone. *)
Lemma run_kernel_frame :
  (forall k j i s k' j' i', get (body k j i s) k' j' i' = get s k' j' i') ->
  forall cells s k j i, get (run_kernel body cells s) k j i = get s k j i.
Proof.
  intros Hbody cells. unfold run_kernel.
  induction cells as [|[[kc jc] ic] cells IH]; intros s k j i; simpl.
  - reflexivity.
  - now rewrite IH, Hbody.
Qed.

(** Such a kernel gives the same view under every schedule of the loop:
    only the set of cells visited matters. *)
Lemma run_kernel_order_irrelevant (v : Z -> Z -> Z -> Real) :
  (forall k j i s k' j' i',
      get (body k j i s) k' j' i' = set_scalar (get s) k j i (v k j i) k' j' i') ->
  forall cells cells' s,
    (forall c, In c cells <-> In c cells') ->
    forall k j i,
      get (run_kernel body cells s) k j i = get (run_kernel body cells' s) k j i.
Proof.
  intros Hbody cells cells' s Hsame k j i.
  rewrite !(run_kernel_writes v Hbody).
  replace (visits cells' k j i) with (visits cells k j i); [reflexivity|].
  apply eq_true_iff_eq. rewrite !visits_In. apply Hsame.
Qed.

End CellwiseKernels.

(** ** The EMF pass *)

Section EMFPass.

Variable F : Fluxes.
Variable cells : list (Z * Z * Z).
Variable e0 : EMFs.

Lemma emf_kernel_emf3 (k j i : Z) :
  emf3 (run_kernel (flux_ct_emf_kernel F) cells e0) k j i =
  if visits cells k j i
  then ( 0.25 * (F1 F B2 k j i + F1 F B2 k (j-1)%Z i
                 - F2 F B1 k j i - F2 F B1 k j (i-1)%Z))%Q
  else emf3 e0 k j i.
Proof.
  apply (run_kernel_writes (flux_ct_emf_kernel F) emf3
    (fun k j i => ( 0.25 * (F1 F B2 k j i + F1 F B2 k (j-1)%Z i
                    - F2 F B1 k j i - F2 F B1 k j (i-1)%Z))%Q)).
  reflexivity.
Qed.

Lemma emf_kernel_emf2 (k j i : Z) :
  emf2 (run_kernel (flux_ct_emf_kernel F) cells e0) k j i =
  if visits cells k j i
  then (-0.25 * (F1 F B3 k j i + F1 F B3 (k-1)%Z j i
                 - F3 F B1 k j i - F3 F B1 k j (i-1)%Z))%Q
  else emf2 e0 k j i.
Proof.
  apply (run_kernel_writes (flux_ct_emf_kernel F) emf2
    (fun k j i => (-0.25 * (F1 F B3 k j i + F1 F B3 (k-1)%Z j i
                    - F3 F B1 k j i - F3 F B1 k j (i-1)%Z))%Q)).
  reflexivity.
Qed.

Lemma emf_kernel_emf1 (k j i : Z) :
  emf1 (run_kernel (flux_ct_emf_kernel F) cells e0) k j i =
  if visits cells k j i
  then ( 0.25 * (F2 F B3 k j i + F2 F B3 (k-1)%Z j i
                 - F3 F B2 k j i - F3 F B2 k (j-1)%Z i))%Q
  else emf1 e0 k j i.
Proof.
  apply (run_kernel_writes (flux_ct_emf_kernel F) emf1
    (fun k j i => ( 0.25 * (F2 F B3 k j i + F2 F B3 (k-1)%Z j i
                    - F3 F B2 k j i - F3 F B2 k (j-1)%Z i))%Q)).
  reflexivity.
Qed.

End EMFPass.

(** ** The rewrite pass *)

Section RewritePass.

Variable e : EMFs.
Variable cells : list (Z * Z * Z).
Variable F : Fluxes.

Lemma rewrite_kernel_F1 (p : prims) (k j i : Z) :
  F1 (run_kernel (flux_ct_kernel e) cells F) p k j i =
  if is_magnetic p && visits cells k j i
  then rewritten1 e p k j i else F1 F p k j i.
Proof.
  destruct p;
    match goal with
    | |- F1 _ ?q _ _ _ = _ =>
        first [ apply (run_kernel_frame (flux_ct_kernel e) (fun s => F1 s q));
                reflexivity
              | apply (run_kernel_writes (flux_ct_kernel e) (fun s => F1 s q)
                         (fun k j i => rewritten1 e q k j i));
                reflexivity ]
    end.
Qed.

Lemma rewrite_kernel_F2 (p : prims) (k j i : Z) :
  F2 (run_kernel (flux_ct_kernel e) cells F) p k j i =
  if is_magnetic p && visits cells k j i
  then rewritten2 e p k j i else F2 F p k j i.
Proof.
  destruct p;
    match goal with
    | |- F2 _ ?q _ _ _ = _ =>
        first [ apply (run_kernel_frame (flux_ct_kernel e) (fun s => F2 s q));
                reflexivity
              | apply (run_kernel_writes (flux_ct_kernel e) (fun s => F2 s q)
                         (fun k j i => rewritten2 e q k j i));
                reflexivity ]
    end.
Qed.

Lemma rewrite_kernel_F3 (p : prims) (k j i : Z) :
  F3 (run_kernel (flux_ct_kernel e) cells F) p k j i =
  if is_magnetic p && visits cells k j i
  then rewritten3 e p k j i else F3 F p k j i.
Proof.
  destruct p;
    match goal with
    | |- F3 _ ?q _ _ _ = _ =>
        first [ apply (run_kernel_frame (flux_ct_kernel e) (fun s => F3 s q));
                reflexivity
              | apply (run_kernel_writes (flux_ct_kernel e) (fun s => F3 s q)
                         (fun k j i => rewritten3 e q k j i));
                reflexivity ]
    end.
Qed.

End RewritePass.

(** ** [FluxCT]: what the container holds afterwards *)

Lemma FluxCT_passes (cb : IndexShape) (rc : Fluxes) :
  FluxCT cb rc =
  (complete, flux_ct_rewrite_pass cb (flux_ct_emf_pass cb rc) rc).
Proof. reflexivity. Qed.

Lemma FluxCT_F1 (cb : IndexShape) (rc : Fluxes) (p : prims) (k j i : Z) :
  F1 (FluxCT_fluxes cb rc) p k j i =
  if is_magnetic p && rewritten_cell cb k j i
  then rewritten1 (flux_ct_emf_pass cb rc) p k j i else F1 rc p k j i.
Proof.
  unfold FluxCT_fluxes, FluxCT, flux_ct_rewrite_pass, par_for, rewritten_cell; simpl snd.
  now rewrite rewrite_kernel_F1, visits_box.
Qed.

Lemma FluxCT_F2 (cb : IndexShape) (rc : Fluxes) (p : prims) (k j i : Z) :
  F2 (FluxCT_fluxes cb rc) p k j i =
  if is_magnetic p && rewritten_cell cb k j i
  then rewritten2 (flux_ct_emf_pass cb rc) p k j i else F2 rc p k j i.
Proof.
  unfold FluxCT_fluxes, FluxCT, flux_ct_rewrite_pass, par_for, rewritten_cell; simpl snd.
  now rewrite rewrite_kernel_F2, visits_box.
Qed.

Lemma FluxCT_F3 (cb : IndexShape) (rc : Fluxes) (p : prims) (k j i : Z) :
  F3 (FluxCT_fluxes cb rc) p k j i =
  if is_magnetic p && rewritten_cell cb k j i
  then rewritten3 (flux_ct_emf_pass cb rc) p k j i else F3 rc p k j i.
Proof.
  unfold FluxCT_fluxes, FluxCT, flux_ct_rewrite_pass, par_for, rewritten_cell; simpl snd.
  now rewrite rewrite_kernel_F3, visits_box.
Qed.

Lemma rewritten_cell_true (cb : IndexShape) (k j i : Z) :
  rewritten_cell cb k j i = true <->
  0 <= k <= nx3 cb + 2 * nghost cb - 2 /\
  0 <= j <= nx2 cb + 2 * nghost cb - 2 /\
  0 <= i <= nx1 cb + 2 * nghost cb - 2.
Proof.
  unfold rewritten_cell. rewrite in_box_true. simpl. lia.
Qed.

Lemma emf_cell_true (cb : IndexShape) (k j i : Z) :
  emf_cell cb k j i = true <->
  1 <= k <= nx3 cb + 2 * nghost cb - 1 /\
  1 <= j <= nx2 cb + 2 * nghost cb - 1 /\
  1 <= i <= nx1 cb + 2 * nghost cb - 1.
Proof.
  unfold emf_cell. rewrite in_box_true. simpl. lia.
Qed.

(** ** Fluxes that are the curl of an edge field *)

Section CurlOfEMF.

Open Scope Q_scope.

Variables w1 w2 w3 : Real.
Variable e : EMFs.
Variable F' : Fluxes.
Variables k j i : Z.

(** Around (k, j, i) the magnetic fluxes are what the rewrite kernel
    stores for the edge field [e]. *)
Hypothesis curl1 : forall p k' j' i',
  is_magnetic p = true ->
  (k - 1 <= k' <= k + 1)%Z -> (j - 1 <= j' <= j + 1)%Z -> (i - 1 <= i' <= i + 1)%Z ->
  F1 F' p k' j' i' = rewritten1 e p k' j' i'.
Hypothesis curl2 : forall p k' j' i',
  is_magnetic p = true ->
  (k - 1 <= k' <= k + 1)%Z -> (j - 1 <= j' <= j + 1)%Z -> (i - 1 <= i' <= i + 1)%Z ->
  F2 F' p k' j' i' = rewritten2 e p k' j' i'.
Hypothesis curl3 : forall p k' j' i',
  is_magnetic p = true ->
  (k - 1 <= k' <= k + 1)%Z -> (j - 1 <= j' <= j + 1)%Z -> (i - 1 <= i' <= i + 1)%Z ->
  F3 F' p k' j' i' = rewritten3 e p k' j' i'.

Lemma curl_normal_flux_sum : normal_flux_sum w1 w2 w3 F' k j i == 0.
Proof.
  unfold normal_flux_sum.
  rewrite !curl1, !curl2, !curl3 by (reflexivity || lia).
  simpl. ring.
Qed.

Lemma curl_divB_rate : divB w1 w2 w3 (flux_divergence w1 w2 w3 F') k j i == 0.
Proof.
  unfold divB, flux_divergence.
  rewrite !curl1, !curl2, !curl3 by (reflexivity || lia).
  unfold rewritten1, rewritten2, rewritten3.
  rewrite !Z.sub_add. ring.
Qed.

Lemma curl_divB_preserved (dt : Real) (P : GridVars) :
  divB w1 w2 w3 (apply_flux_divergence dt w1 w2 w3 F' P) k j i ==
  divB w1 w2 w3 P k j i.
Proof.
  assert (L : divB w1 w2 w3 (apply_flux_divergence dt w1 w2 w3 F' P) k j i ==
              divB w1 w2 w3 P k j i
              + dt * divB w1 w2 w3 (flux_divergence w1 w2 w3 F') k j i).
  { unfold divB, apply_flux_divergence. ring. }
  rewrite L, curl_divB_rate. ring.
Qed.

End CurlOfEMF.

(** ** [FluxCT]: divergence, passes and frame *)

Lemma FluxCT_curl_near (cb : IndexShape) (rc : Fluxes) (k j i : Z) :
  1 <= k <= nx3 cb + 2 * nghost cb - 3 ->
  1 <= j <= nx2 cb + 2 * nghost cb - 3 ->
  1 <= i <= nx1 cb + 2 * nghost cb - 3 ->
  forall k' j' i',
    k - 1 <= k' <= k + 1 -> j - 1 <= j' <= j + 1 -> i - 1 <= i' <= i + 1 ->
    rewritten_cell cb k' j' i' = true.
Proof.
  intros Hk Hj Hi k' j' i' Hk' Hj' Hi'. apply rewritten_cell_true. lia.
Qed.

Lemma interior_cell_bounds (cb : IndexShape) (k j i : Z) :
  2 <= nghost cb -> interior_cell cb k j i ->
  1 <= k <= nx3 cb + 2 * nghost cb - 3 /\
  1 <= j <= nx2 cb + 2 * nghost cb - 3 /\
  1 <= i <= nx1 cb + 2 * nghost cb - 3.
Proof.
  unfold interior_cell, cb_ks, cb_ke, cb_js, cb_je, cb_is, cb_ie. lia.
Qed.

(** C1.  On a block with at least two ghost layers, after [FluxCT] and for
    every interior cell (k, j, i), whatever the input fluxes: the divergence
    of B taken at the cell's corner has zero rate of change under the flux
    divergence of the rewritten fluxes, so one update leaves it unchanged;
    and the signed sum of the face-normal magnetic flux components over the
    six faces of the cell is zero. *)
Theorem FluxCT_divergence_free (cb : IndexShape) (rc : Fluxes)
    (w1 w2 w3 dt : Real) (P : GridVars) (k j i : Z) :
  2 <= nghost cb ->
  interior_cell cb k j i ->
  (divB w1 w2 w3 (flux_divergence w1 w2 w3 (FluxCT_fluxes cb rc)) k j i == 0 /\
   divB w1 w2 w3 (apply_flux_divergence dt w1 w2 w3 (FluxCT_fluxes cb rc) P) k j i
     == divB w1 w2 w3 P k j i /\
   normal_flux_sum w1 w2 w3 (FluxCT_fluxes cb rc) k j i == 0)%Q.
Proof.
  intros Hng Hint.
  destruct (interior_cell_bounds cb k j i Hng Hint) as (Hk & Hj & Hi).
  pose proof (FluxCT_curl_near cb rc k j i Hk Hj Hi) as Hnear.
  assert (C1 : forall p k' j' i', is_magnetic p = true ->
            k - 1 <= k' <= k + 1 -> j - 1 <= j' <= j + 1 -> i - 1 <= i' <= i + 1 ->
            F1 (FluxCT_fluxes cb rc) p k' j' i' =
            rewritten1 (flux_ct_emf_pass cb rc) p k' j' i').
  { intros p k' j' i' Hp Hk' Hj' Hi'.
    now rewrite FluxCT_F1, Hp, Hnear. }
  assert (C2 : forall p k' j' i', is_magnetic p = true ->
            k - 1 <= k' <= k + 1 -> j - 1 <= j' <= j + 1 -> i - 1 <= i' <= i + 1 ->
            F2 (FluxCT_fluxes cb rc) p k' j' i' =
            rewritten2 (flux_ct_emf_pass cb rc) p k' j' i').
  { intros p k' j' i' Hp Hk' Hj' Hi'.
    now rewrite FluxCT_F2, Hp, Hnear. }
  assert (C3 : forall p k' j' i', is_magnetic p = true ->
            k - 1 <= k' <= k + 1 -> j - 1 <= j' <= j + 1 -> i - 1 <= i' <= i + 1 ->
            F3 (FluxCT_fluxes cb rc) p k' j' i' =
            rewritten3 (flux_ct_emf_pass cb rc) p k' j' i').
  { intros p k' j' i' Hp Hk' Hj' Hi'.
    now rewrite FluxCT_F3, Hp, Hnear. }
  split; [|split].
  - exact (curl_divB_rate w1 w2 w3 _ _ k j i C1 C2 C3).
  - exact (curl_divB_preserved w1 w2 w3 _ _ k j i C1 C2 C3 dt P).
  - exact (curl_normal_flux_sum w1 w2 w3 _ _ k j i C1 C2 C3).
Qed.

Lemma FluxCT_divergence_free_witness :
  2 <= nghost sample_block /\
  interior_cell sample_block 2 3 2 /\
  (divB 1 1 1 (flux_divergence 1 1 1 (FluxCT_fluxes sample_block sample_fluxes)) 2 3 2
   == 0)%Q.
Proof.
  assert (H1 : 2 <= nghost sample_block) by (simpl; lia).
  assert (H2 : interior_cell sample_block 2 3 2)
    by (unfold interior_cell; simpl; lia).
  split; [exact H1|]. split; [exact H2|].
  exact (proj1 (FluxCT_divergence_free sample_block sample_fluxes 1%Q 1%Q 1%Q 0%Q
                  (fun _ _ _ _ => 0%Q) 2 3 2 H1 H2)).
Defined.

(** The input fluxes of the sample block are not divergence-free by
    themselves: the rewrite is what makes the sum vanish. *)
Example sample_fluxes_not_divergence_free :
  ~ (divB 1 1 1 (flux_divergence 1 1 1 sample_fluxes) 2 3 2 == 0)%Q.
Proof. vm_compute. discriminate. Qed.

Example sample_FluxCT_divergence_computed :
  (Qred (divB 1 1 1 (flux_divergence 1 1 1 (FluxCT_fluxes sample_block sample_fluxes)) 2 3 2)
   = 0)%Q.
Proof. vm_compute. reflexivity. Qed.

(** With a single ghost layer the stencil of the last interior cell reaches
    the layer of faces the rewrite kernel leaves alone, and the sum no
    longer vanishes. *)
Example single_ghost_layer_reaches_unrewritten_faces :
  interior_cell (mkShape 2 2 2 1) 2 2 2 /\
  ~ (divB 1 1 1 (flux_divergence 1 1 1
       (FluxCT_fluxes (mkShape 2 2 2 1) sample_fluxes)) 2 2 2 == 0)%Q.
Proof.
  split; [unfold interior_cell; simpl; lia | vm_compute; discriminate].
Qed.

Lemma flux_ct_emf_pass_emf3 (cb : IndexShape) (F : Fluxes) (k j i : Z) :
  emf3 (flux_ct_emf_pass cb F) k j i =
  if emf_cell cb k j i
  then ( 0.25 * (F1 F B2 k j i + F1 F B2 k (j-1)%Z i
                 - F2 F B1 k j i - F2 F B1 k j (i-1)%Z))%Q
  else 0%Q.
Proof.
  unfold flux_ct_emf_pass, par_for, emf_cell.
  now rewrite emf_kernel_emf3, visits_box.
Qed.

Lemma flux_ct_emf_pass_emf2 (cb : IndexShape) (F : Fluxes) (k j i : Z) :
  emf2 (flux_ct_emf_pass cb F) k j i =
  if emf_cell cb k j i
  then (-0.25 * (F1 F B3 k j i + F1 F B3 (k-1)%Z j i
                 - F3 F B1 k j i - F3 F B1 k j (i-1)%Z))%Q
  else 0%Q.
Proof.
  unfold flux_ct_emf_pass, par_for, emf_cell.
  now rewrite emf_kernel_emf2, visits_box.
Qed.

Lemma flux_ct_emf_pass_emf1 (cb : IndexShape) (F : Fluxes) (k j i : Z) :
  emf1 (flux_ct_emf_pass cb F) k j i =
  if emf_cell cb k j i
  then ( 0.25 * (F2 F B3 k j i + F2 F B3 (k-1)%Z j i
                 - F3 F B2 k j i - F3 F B2 k (j-1)%Z i))%Q
  else 0%Q.
Proof.
  unfold flux_ct_emf_pass, par_for, emf_cell.
  now rewrite emf_kernel_emf1, visits_box.
Qed.

Lemma flux_ct_rewrite_pass_F1 (cb : IndexShape) (e : EMFs) (F : Fluxes)
    (p : prims) (k j i : Z) :
  F1 (flux_ct_rewrite_pass cb e F) p k j i =
  if is_magnetic p && rewritten_cell cb k j i
  then rewritten1 e p k j i else F1 F p k j i.
Proof.
  unfold flux_ct_rewrite_pass, par_for, rewritten_cell.
  now rewrite rewrite_kernel_F1, visits_box.
Qed.

Lemma flux_ct_rewrite_pass_F2 (cb : IndexShape) (e : EMFs) (F : Fluxes)
    (p : prims) (k j i : Z) :
  F2 (flux_ct_rewrite_pass cb e F) p k j i =
  if is_magnetic p && rewritten_cell cb k j i
  then rewritten2 e p k j i else F2 F p k j i.
Proof.
  unfold flux_ct_rewrite_pass, par_for, rewritten_cell.
  now rewrite rewrite_kernel_F2, visits_box.
Qed.

Lemma flux_ct_rewrite_pass_F3 (cb : IndexShape) (e : EMFs) (F : Fluxes)
    (p : prims) (k j i : Z) :
  F3 (flux_ct_rewrite_pass cb e F) p k j i =
  if is_magnetic p && rewritten_cell cb k j i
  then rewritten3 e p k j i else F3 F p k j i.
Proof.
  unfold flux_ct_rewrite_pass, par_for, rewritten_cell.
  now rewrite rewrite_kernel_F3, visits_box.
Qed.

Lemma in_box_of_bounds (kl ku jl ju il iu k j i : Z) :
  kl <= k <= ku -> jl <= j <= ju -> il <= i <= iu ->
  in_box kl ku jl ju il iu k j i = true.
Proof. intros. apply in_box_true. auto. Qed.

(** C2.  [FluxCT] is the EMF pass followed by the rewrite pass.  At every
    edge (ke, je, ie) the first pass visits, each EMF is a quarter of the
    signed sum of the four adjacent magnetic flux values; at every location
    (k, j, i) the second pass visits, each transverse magnetic flux is a
    signed half-sum of two values of one EMF, and the values the rewrite
    pass stores there are the same whatever fluxes [Fa], [Fb] it starts
    from. *)
Theorem FluxCT_two_passes (cb : IndexShape) (rc : Fluxes)
    (e : EMFs) (Fa Fb : Fluxes) (ke je ie k j i : Z) (p : prims) :
  cb_ks cb entire + 1 <= ke <= cb_ke cb entire ->
  cb_js cb entire + 1 <= je <= cb_je cb entire ->
  cb_is cb entire + 1 <= ie <= cb_ie cb entire ->
  cb_ks cb entire <= k <= cb_ke cb entire - 1 ->
  cb_js cb entire <= j <= cb_je cb entire - 1 ->
  cb_is cb entire <= i <= cb_ie cb entire - 1 ->
  is_magnetic p = true ->
  FluxCT cb rc = (complete, flux_ct_rewrite_pass cb (flux_ct_emf_pass cb rc) rc) /\
  (emf3 (flux_ct_emf_pass cb rc) ke je ie =
     ( 0.25 * (F1 rc B2 ke je ie + F1 rc B2 ke (je-1)%Z ie
               - F2 rc B1 ke je ie - F2 rc B1 ke je (ie-1)%Z))%Q /\
   emf2 (flux_ct_emf_pass cb rc) ke je ie =
     (-0.25 * (F1 rc B3 ke je ie + F1 rc B3 (ke-1)%Z je ie
               - F3 rc B1 ke je ie - F3 rc B1 ke je (ie-1)%Z))%Q /\
   emf1 (flux_ct_emf_pass cb rc) ke je ie =
     ( 0.25 * (F2 rc B3 ke je ie + F2 rc B3 (ke-1)%Z je ie
               - F3 rc B2 ke je ie - F3 rc B2 ke (je-1)%Z ie))%Q) /\
  (F1 (flux_ct_rewrite_pass cb e Fa) B2 k j i =
     ( 0.5 * (emf3 e k j i + emf3 e k (j+1)%Z i))%Q /\
   F1 (flux_ct_rewrite_pass cb e Fa) B3 k j i =
     (-0.5 * (emf2 e k j i + emf2 e (k+1)%Z j i))%Q /\
   F2 (flux_ct_rewrite_pass cb e Fa) B1 k j i =
     (-0.5 * (emf3 e k j i + emf3 e k j (i+1)%Z))%Q /\
   F2 (flux_ct_rewrite_pass cb e Fa) B3 k j i =
     ( 0.5 * (emf1 e k j i + emf1 e (k+1)%Z j i))%Q /\
   F3 (flux_ct_rewrite_pass cb e Fa) B1 k j i =
     ( 0.5 * (emf2 e k j i + emf2 e k j (i+1)%Z))%Q /\
   F3 (flux_ct_rewrite_pass cb e Fa) B2 k j i =
     (-0.5 * (emf1 e k j i + emf1 e k (j+1)%Z i))%Q) /\
  (F1 (flux_ct_rewrite_pass cb e Fa) p k j i =
     F1 (flux_ct_rewrite_pass cb e Fb) p k j i /\
   F2 (flux_ct_rewrite_pass cb e Fa) p k j i =
     F2 (flux_ct_rewrite_pass cb e Fb) p k j i /\
   F3 (flux_ct_rewrite_pass cb e Fa) p k j i =
     F3 (flux_ct_rewrite_pass cb e Fb) p k j i).
Proof.
  intros Hke Hje Hie Hk Hj Hi Hp.
  assert (He : emf_cell cb ke je ie = true)
    by (unfold emf_cell; now apply in_box_of_bounds).
  assert (Hr : rewritten_cell cb k j i = true)
    by (unfold rewritten_cell; now apply in_box_of_bounds).
  split; [reflexivity|]. split; [|split].
  - now rewrite flux_ct_emf_pass_emf3, flux_ct_emf_pass_emf2,
      flux_ct_emf_pass_emf1, He.
  - rewrite !flux_ct_rewrite_pass_F1, !flux_ct_rewrite_pass_F2,
      !flux_ct_rewrite_pass_F3, Hr. simpl. auto 10.
  - rewrite !flux_ct_rewrite_pass_F1, !flux_ct_rewrite_pass_F2,
      !flux_ct_rewrite_pass_F3, Hr, Hp. simpl. auto.
Qed.

Lemma FluxCT_two_passes_witness :
  emf3 (flux_ct_emf_pass sample_block sample_fluxes) 1 1 1 =
    ( 0.25 * (F1 sample_fluxes B2 1%Z 1%Z 1%Z + F1 sample_fluxes B2 1%Z 0%Z 1%Z
              - F2 sample_fluxes B1 1%Z 1%Z 1%Z - F2 sample_fluxes B1 1%Z 1%Z 0%Z))%Q /\
  F1 (flux_ct_rewrite_pass sample_block
        (flux_ct_emf_pass sample_block sample_fluxes) sample_fluxes) B2 0 0 0 =
    ( 0.5 * (emf3 (flux_ct_emf_pass sample_block sample_fluxes) 0%Z 0%Z 0%Z
             + emf3 (flux_ct_emf_pass sample_block sample_fluxes) 0%Z 1%Z 0%Z))%Q.
Proof.
  assert (He : cb_ks sample_block entire + 1 <= 1 <= cb_ke sample_block entire)
    by (simpl; lia).
  assert (Hr : cb_ks sample_block entire <= 0 <= cb_ke sample_block entire - 1)
    by (simpl; lia).
  destruct (FluxCT_two_passes sample_block sample_fluxes
              (flux_ct_emf_pass sample_block sample_fluxes)
              sample_fluxes sample_fluxes 1 1 1 0 0 0 B2
              He He He Hr Hr Hr eq_refl)
    as (_ & (H3 & _) & (H12 & _) & _).
  split; [exact H3 | exact H12].
Defined.

(** C6.  After [FluxCT], at every location the rewrite kernel visits, the
    magnetic flux component along the flux's own direction is zero: B1 of
    F1, B2 of F2 and B3 of F3. *)
Theorem FluxCT_parallel_component_zero (cb : IndexShape) (rc : Fluxes) (k j i : Z) :
  cb_ks cb entire <= k <= cb_ke cb entire - 1 ->
  cb_js cb entire <= j <= cb_je cb entire - 1 ->
  cb_is cb entire <= i <= cb_ie cb entire - 1 ->
  F1 (FluxCT_fluxes cb rc) B1 k j i = 0.0%Q /\
  F2 (FluxCT_fluxes cb rc) B2 k j i = 0.0%Q /\
  F3 (FluxCT_fluxes cb rc) B3 k j i = 0.0%Q.
Proof.
  intros Hk Hj Hi.
  assert (Hr : rewritten_cell cb k j i = true)
    by (unfold rewritten_cell; now apply in_box_of_bounds).
  now rewrite FluxCT_F1, FluxCT_F2, FluxCT_F3, Hr.
Qed.

Lemma FluxCT_parallel_component_zero_witness :
  F1 (FluxCT_fluxes sample_block sample_fluxes) B1 4 0 3 = 0.0%Q /\
  F2 (FluxCT_fluxes sample_block sample_fluxes) B2 4 0 3 = 0.0%Q /\
  F3 (FluxCT_fluxes sample_block sample_fluxes) B3 4 0 3 = 0.0%Q.
Proof.
  apply (FluxCT_parallel_component_zero sample_block sample_fluxes 4 0 3);
    simpl; lia.
Defined.

(** The last layer of faces in each direction is not visited: there the
    parallel component keeps the value it had. *)
Example sample_last_layer_keeps_parallel_component :
  F1 (FluxCT_fluxes sample_block sample_fluxes) B1 2 2 5 = F1 sample_fluxes B1 2 2 5 /\
  ~ (F1 sample_fluxes B1 2%Z 2%Z 5%Z == 0)%Q.
Proof. split; [vm_compute; reflexivity | vm_compute; discriminate]. Qed.

(** C10.  [FluxCT] leaves every non-magnetic component of the three flux
    fields as it was, at every location; the EMFs it works with are built
    inside the call from zero-filled views, so a cell the EMF kernel does
    not visit holds zero, and the call hands back a status and the fluxes
    only. *)
Theorem FluxCT_frame (cb : IndexShape) (rc : Fluxes) (p : prims) (k j i : Z) :
  is_magnetic p = false ->
  (F1 (FluxCT_fluxes cb rc) p k j i = F1 rc p k j i /\
   F2 (FluxCT_fluxes cb rc) p k j i = F2 rc p k j i /\
   F3 (FluxCT_fluxes cb rc) p k j i = F3 rc p k j i) /\
  (emf_cell cb k j i = false ->
   emf1 (flux_ct_emf_pass cb rc) k j i = 0%Q /\
   emf2 (flux_ct_emf_pass cb rc) k j i = 0%Q /\
   emf3 (flux_ct_emf_pass cb rc) k j i = 0%Q) /\
  FluxCT cb rc = (complete, FluxCT_fluxes cb rc).
Proof.
  intros Hp. split; [|split].
  - now rewrite FluxCT_F1, FluxCT_F2, FluxCT_F3, Hp.
  - intros He.
    now rewrite flux_ct_emf_pass_emf1, flux_ct_emf_pass_emf2,
      flux_ct_emf_pass_emf3, He.
  - reflexivity.
Qed.

Lemma FluxCT_frame_witness :
  is_magnetic u1 = false /\
  F1 (FluxCT_fluxes sample_block sample_fluxes) u1 2 3 1 = F1 sample_fluxes u1 2 3 1 /\
  F2 (FluxCT_fluxes sample_block sample_fluxes) u1 2 3 1 = F2 sample_fluxes u1 2 3 1 /\
  F3 (FluxCT_fluxes sample_block sample_fluxes) u1 2 3 1 = F3 sample_fluxes u1 2 3 1.
Proof.
  split; [reflexivity|].
  exact (proj1 (FluxCT_frame sample_block sample_fluxes u1 2 3 1 eq_refl)).
Defined.

(** ** [LRToFlux]: what the loop stores *)

Lemma ctop_of_nonneg (cmaxL cminL cmaxR cminR : Real) :
  (0 <= ctop_of cmaxL cminL cmaxR cminR)%Q.
Proof.
  unfold ctop_of.
  eapply Qle_trans; [apply Qabs_nonneg | apply Q.le_max_l].
Qed.

Lemma ctop_of_upper (cmaxL cminL cmaxR cminR : Real) :
  (cmaxL <= ctop_of cmaxL cminL cmaxR cminR /\
   cmaxR <= ctop_of cmaxL cminL cmaxR cminR /\
   - cminL <= ctop_of cmaxL cminL cmaxR cminR /\
   - cminR <= ctop_of cmaxL cminL cmaxR cminR)%Q.
Proof.
  unfold ctop_of.
  set (A := Qmax (Qmax 0.0 cmaxL) cmaxR).
  set (B := Qmax (Qmax 0.0 (- cminL)) (- cminR)).
  pose proof (Q.le_max_l (Qabs A) (Qabs B)) as HA.
  pose proof (Q.le_max_r (Qabs A) (Qabs B)) as HB.
  pose proof (Qle_Qabs A) as HAA. pose proof (Qle_Qabs B) as HBB.
  pose proof (Q.le_max_l (Qmax 0.0 cmaxL) cmaxR) as H1.
  pose proof (Q.le_max_r (Qmax 0.0 cmaxL) cmaxR) as H2.
  pose proof (Q.le_max_r 0.0 cmaxL) as H3.
  pose proof (Q.le_max_l (Qmax 0.0 (- cminL)) (- cminR)) as H4.
  pose proof (Q.le_max_r (Qmax 0.0 (- cminL)) (- cminR)) as H5.
  pose proof (Q.le_max_r 0.0 (- cminL)) as H6.
  fold A in H1, H2. fold B in H4, H5.
  repeat split; lra.
Qed.

Lemma ctop_of_bounds (cmaxL cminL cmaxR cminR : Real) :
  (cminL <= cmaxL -> cminR <= cmaxR ->
   Qabs cmaxL <= ctop_of cmaxL cminL cmaxR cminR /\
   Qabs cminL <= ctop_of cmaxL cminL cmaxR cminR /\
   Qabs cmaxR <= ctop_of cmaxL cminL cmaxR cminR /\
   Qabs cminR <= ctop_of cmaxL cminL cmaxR cminR)%Q.
Proof.
  intros HL HR.
  destruct (ctop_of_upper cmaxL cminL cmaxR cminR) as (H1 & H2 & H3 & H4).
  repeat split; apply Qabs_Qle_condition; split; lra.
Qed.

Section LocalFluxSolverProperties.

Context (phys : PhysicsLayer) (junk : Indeterminate).
Variable G : GRCoordinates phys.
Variable eos : EOS phys.
Variables pl pr : GridVars.
Variable dir : Z.
Variable loc : Loci.

Lemma uber_flux_kernel_flux (p : prims) (k j i : Z) (s : FluxState) (k' j' i' : Z) :
  flux (uber_flux_kernel phys junk G eos pl pr dir loc k j i s) p k' j' i' =
  set_scalar (flux s p) k j i (stored_flux phys junk G eos pl pr dir loc p k j i) k' j' i'.
Proof.
  unfold stored_flux, uber_flux_kernel, face_flux, face_ctop.
  destruct (left_after_switch junk dir k j i) as [[kl jl] il]. simpl fst. simpl snd.
  destruct (mhd_vchar phys G pl _ eos kl jl il loc dir) as [cmaxL cminL].
  destruct (mhd_vchar phys G pr _ eos k j i loc dir) as [cmaxR cminR].
  destruct p; reflexivity.
Qed.

Lemma uber_flux_kernel_ctop (d : Z) (k j i : Z) (s : FluxState) (k' j' i' : Z) :
  ctop (uber_flux_kernel phys junk G eos pl pr dir loc k j i s) d k' j' i' =
  if d =? dir then set_scalar (ctop s d) k j i (stored_ctop phys junk G eos pl pr dir loc k j i) k' j' i'
  else ctop s d k' j' i'.
Proof.
  unfold stored_ctop, uber_flux_kernel, face_ctop.
  destruct (left_after_switch junk dir k j i) as [[kl jl] il]. simpl fst. simpl snd.
  destruct (mhd_vchar phys G pl _ eos kl jl il loc dir) as [cmaxL cminL].
  destruct (mhd_vchar phys G pr _ eos k j i loc dir) as [cmaxR cminR].
  simpl. unfold set_ctop. now destruct (d =? dir).
Qed.

Lemma uber_flux_loop_flux (cells : list (Z * Z * Z)) (s : FluxState)
    (p : prims) (k j i : Z) :
  flux (run_kernel (uber_flux_kernel phys junk G eos pl pr dir loc) cells s) p k j i =
  if visits cells k j i then stored_flux phys junk G eos pl pr dir loc p k j i else flux s p k j i.
Proof.
  apply (run_kernel_writes (uber_flux_kernel phys junk G eos pl pr dir loc)
           (fun s => flux s p) (stored_flux phys junk G eos pl pr dir loc p)).
  intros. apply uber_flux_kernel_flux.
Qed.

Lemma uber_flux_loop_ctop (cells : list (Z * Z * Z)) (s : FluxState)
    (d : Z) (k j i : Z) :
  ctop (run_kernel (uber_flux_kernel phys junk G eos pl pr dir loc) cells s) d k j i =
  if (d =? dir) && visits cells k j i then stored_ctop phys junk G eos pl pr dir loc k j i else ctop s d k j i.
Proof.
  destruct (d =? dir) eqn:E; simpl.
  - apply (run_kernel_writes (uber_flux_kernel phys junk G eos pl pr dir loc)
             (fun s => ctop s d) (stored_ctop phys junk G eos pl pr dir loc)).
    intros. now rewrite uber_flux_kernel_ctop, E.
  - apply (run_kernel_frame (uber_flux_kernel phys junk G eos pl pr dir loc)
             (fun s => ctop s d)).
    intros. now rewrite uber_flux_kernel_ctop, E.
Qed.

End LocalFluxSolverProperties.

Lemma LRToFlux_flux (phys : PhysicsLayer) (junk : Indeterminate)
    (cb : IndexShape) (G : GRCoordinates phys) (gamma : Real)
    (pl pr : GridVars) (dir : Z) (s : FluxState) (p : prims) (k j i : Z) :
  flux (LRToFlux phys junk cb G gamma pl pr dir s) p k j i =
  if halo_face cb k j i
  then stored_flux phys junk G (CreateEOS phys gamma) pl pr dir
         (loc_after_switch junk dir) p k j i
  else flux s p k j i.
Proof.
  unfold LRToFlux, par_for, halo_face.
  now rewrite uber_flux_loop_flux, visits_box.
Qed.

Lemma LRToFlux_ctop (phys : PhysicsLayer) (junk : Indeterminate)
    (cb : IndexShape) (G : GRCoordinates phys) (gamma : Real)
    (pl pr : GridVars) (dir : Z) (s : FluxState) (d k j i : Z) :
  ctop (LRToFlux phys junk cb G gamma pl pr dir s) d k j i =
  if (d =? dir) && halo_face cb k j i
  then stored_ctop phys junk G (CreateEOS phys gamma) pl pr dir
         (loc_after_switch junk dir) k j i
  else ctop s d k j i.
Proof.
  unfold LRToFlux, par_for, halo_face.
  now rewrite uber_flux_loop_ctop, visits_box.
Qed.

Lemma halo_face_of_bounds (cb : IndexShape) (k j i : Z) :
  cb_ks cb interior - 1 <= k <= cb_ke cb interior + 1 ->
  cb_js cb interior - 1 <= j <= cb_je cb interior + 1 ->
  cb_is cb interior - 1 <= i <= cb_ie cb interior + 1 ->
  halo_face cb k j i = true.
Proof. intros. unfold halo_face. now apply in_box_of_bounds. Qed.

(** The lowest face of the loop range reads its left state one zone further
    down: that zone is inside the block exactly when the block has two
    ghost layers or more. *)
Lemma halo_left_zone_in_block (cb : IndexShape) :
  cb_is cb entire <= (cb_is cb interior - 1) - 1 /\
  cb_js cb entire <= (cb_js cb interior - 1) - 1 /\
  cb_ks cb entire <= (cb_ks cb interior - 1) - 1 <->
  2 <= nghost cb.
Proof. simpl. lia. Qed.

(** ** [LRToFlux]: flux formula, speed bound, consistency and range *)

(** C3.  For a direction tag 1, 2 or 3, every face (k, j, i) of the range
    the loop covers and every component p, the stored flux is
    0.5 * (fluxL[p] + fluxR[p] - ctop * (Ur[p] - Ul[p])), where the left
    quantities come from [pl] at the zone one step back along the
    direction, the right ones from [pr] at (k, j, i), and ctop is the speed
    stored for that face. *)
Theorem LRToFlux_local_lax_friedrichs (phys : PhysicsLayer) (junk : Indeterminate)
    (cb : IndexShape) (G : GRCoordinates phys) (gamma : Real)
    (pl pr : GridVars) (dir : Z) (s : FluxState) (p : prims)
    (k j i kl jl il : Z) (loc : Loci) :
  cb_ks cb interior - 1 <= k <= cb_ke cb interior + 1 ->
  cb_js cb interior - 1 <= j <= cb_je cb interior + 1 ->
  cb_is cb interior - 1 <= i <= cb_ie cb interior + 1 ->
  (dir = 1 /\ loc = face1 /\ (kl, jl, il) = (k, j, i - 1) \/
   dir = 2 /\ loc = face2 /\ (kl, jl, il) = (k, j - 1, i) \/
   dir = 3 /\ loc = face3 /\ (kl, jl, il) = (k - 1, j, i)) ->
  let eos := CreateEOS phys gamma in
  let Dl := get_state phys G pl kl jl il loc in
  let Ul := prim_to_flux phys G pl Dl eos kl jl il loc 0 in
  let fluxL := prim_to_flux phys G pl Dl eos kl jl il loc dir in
  let Dr := get_state phys G pr k j i loc in
  let Ur := prim_to_flux phys G pr Dr eos k j i loc 0 in
  let fluxR := prim_to_flux phys G pr Dr eos k j i loc dir in
  let ctop' := ctop (LRToFlux phys junk cb G gamma pl pr dir s) dir k j i in
  flux (LRToFlux phys junk cb G gamma pl pr dir s) p k j i =
  (0.5 * (fluxL p + fluxR p - ctop' * (Ur p - Ul p)))%Q.
Proof.
  intros Hk Hj Hi Hdir. cbv zeta.
  rewrite LRToFlux_flux, LRToFlux_ctop, Z.eqb_refl,
    (halo_face_of_bounds cb k j i Hk Hj Hi).
  destruct Hdir as [(-> & -> & E) | [(-> & -> & E) | (-> & -> & E)]];
    inversion E; subst; reflexivity.
Qed.

Lemma LRToFlux_local_lax_friedrichs_witness :
  Qeq (flux (LRToFlux sample_physics sample_junk sample_block tt 2%Q
               sample_pl sample_pr 2 sample_state) B2 3 1 4) 267%Q.
Proof.
  assert (Hk : cb_ks sample_block interior - 1 <= 3 <= cb_ke sample_block interior + 1)
    by (simpl; lia).
  assert (Hj : cb_js sample_block interior - 1 <= 1 <= cb_je sample_block interior + 1)
    by (simpl; lia).
  assert (Hi : cb_is sample_block interior - 1 <= 4 <= cb_ie sample_block interior + 1)
    by (simpl; lia).
  rewrite (LRToFlux_local_lax_friedrichs sample_physics sample_junk sample_block tt 2%Q
             sample_pl sample_pr 2 sample_state B2 3 1 4 3 0 4 face2 Hk Hj Hi
             (or_intror (or_introl (conj eq_refl (conj eq_refl eq_refl))))).
  vm_compute. reflexivity.
Defined.

(** C4.  For every face (k, j, i) of the range the loop covers, the stored
    speed is non-negative and bounds the absolute value of each of the four
    one-sided speeds [mhd_vchar] returned for the two adjacent states,
    [mhd_vchar] handing back on each side a largest speed [cmax] and a
    smallest speed [cmin] with [cmin <= cmax]. *)
Theorem LRToFlux_ctop_bounds (phys : PhysicsLayer) (junk : Indeterminate)
    (cb : IndexShape) (G : GRCoordinates phys) (gamma : Real)
    (pl pr : GridVars) (dir : Z) (s : FluxState)
    (k j i kl jl il : Z) (cmaxL cminL cmaxR cminR : Real) :
  cb_ks cb interior - 1 <= k <= cb_ke cb interior + 1 ->
  cb_js cb interior - 1 <= j <= cb_je cb interior + 1 ->
  cb_is cb interior - 1 <= i <= cb_ie cb interior + 1 ->
  left_after_switch junk dir k j i = (kl, jl, il) ->
  let eos := CreateEOS phys gamma in
  let loc := loc_after_switch junk dir in
  mhd_vchar phys G pl (get_state phys G pl kl jl il loc) eos kl jl il loc dir
    = (cmaxL, cminL) ->
  mhd_vchar phys G pr (get_state phys G pr k j i loc) eos k j i loc dir
    = (cmaxR, cminR) ->
  (cminL <= cmaxL)%Q ->
  (cminR <= cmaxR)%Q ->
  let ctop' := ctop (LRToFlux phys junk cb G gamma pl pr dir s) dir k j i in
  (0 <= ctop' /\
   Qabs cmaxL <= ctop' /\ Qabs cminL <= ctop' /\
   Qabs cmaxR <= ctop' /\ Qabs cminR <= ctop')%Q.
Proof.
  intros Hk Hj Hi Hleft eos loc HvL HvR HL HR ctop'.
  assert (E : ctop' = ctop_of cmaxL cminL cmaxR cminR).
  { unfold ctop'. rewrite LRToFlux_ctop, Z.eqb_refl,
      (halo_face_of_bounds cb k j i Hk Hj Hi).
    unfold stored_ctop. rewrite Hleft.
    simpl. unfold face_ctop. fold eos. fold loc. now rewrite HvL, HvR. }
  rewrite E. split.
  - apply ctop_of_nonneg.
  - now apply ctop_of_bounds.
Qed.

Lemma LRToFlux_ctop_bounds_witness :
  (0 <= ctop (LRToFlux sample_physics sample_junk sample_block tt 2%Q
                sample_pl sample_pr 2 sample_state) 2 3 1 4)%Q /\
  (Qabs 21 <= ctop (LRToFlux sample_physics sample_junk sample_block tt 2%Q
                      sample_pl sample_pr 2 sample_state) 2 3 1 4)%Q.
Proof.
  assert (Hk : cb_ks sample_block interior - 1 <= 3 <= cb_ke sample_block interior + 1)
    by (simpl; lia).
  assert (Hj : cb_js sample_block interior - 1 <= 1 <= cb_je sample_block interior + 1)
    by (simpl; lia).
  assert (Hi : cb_is sample_block interior - 1 <= 4 <= cb_ie sample_block interior + 1)
    by (simpl; lia).
  assert (HL : (- (21) <= 21)%Q) by (vm_compute; discriminate).
  assert (HR : (- (4) <= 4)%Q) by (vm_compute; discriminate).
  destruct (LRToFlux_ctop_bounds sample_physics sample_junk sample_block tt 2%Q
              sample_pl sample_pr 2 sample_state 3 1 4 3 0 4
              21%Q (- (21))%Q 4%Q (- (4))%Q
              Hk Hj Hi eq_refl eq_refl eq_refl HL HR) as (H0 & H1 & _).
  split; [exact H0 | exact H1].
Defined.

(** The ordering of the two speeds of a side is what the bound rests on:
    the formula by itself does not cover a side whose [cmax] lies below its
    [cmin]. *)
Example ctop_of_needs_ordered_speeds :
  (ctop_of (- (5)) 0 0 0 < Qabs (- (5)))%Q.
Proof. vm_compute. reflexivity. Qed.

(** At a face of the range the loop covers, if the conserved variables and
    the physical fluxes computed for the left and for the right state agree
    in component p, then the stored flux is that physical flux and the
    dissipation term ctop * (Ur[p] - Ul[p]) is zero. *)
Theorem LRToFlux_consistency (phys : PhysicsLayer) (junk : Indeterminate)
    (cb : IndexShape) (G : GRCoordinates phys) (gamma : Real)
    (pl pr : GridVars) (dir : Z) (s : FluxState) (p : prims)
    (k j i kl jl il : Z) :
  cb_ks cb interior - 1 <= k <= cb_ke cb interior + 1 ->
  cb_js cb interior - 1 <= j <= cb_je cb interior + 1 ->
  cb_is cb interior - 1 <= i <= cb_ie cb interior + 1 ->
  left_after_switch junk dir k j i = (kl, jl, il) ->
  let eos := CreateEOS phys gamma in
  let loc := loc_after_switch junk dir in
  let Dl := get_state phys G pl kl jl il loc in
  let Ul := prim_to_flux phys G pl Dl eos kl jl il loc 0 in
  let fluxL := prim_to_flux phys G pl Dl eos kl jl il loc dir in
  let Dr := get_state phys G pr k j i loc in
  let Ur := prim_to_flux phys G pr Dr eos k j i loc 0 in
  let fluxR := prim_to_flux phys G pr Dr eos k j i loc dir in
  (Ul p == Ur p)%Q ->
  (fluxL p == fluxR p)%Q ->
  let ctop' := ctop (LRToFlux phys junk cb G gamma pl pr dir s) dir k j i in
  (flux (LRToFlux phys junk cb G gamma pl pr dir s) p k j i == fluxL p /\
   flux (LRToFlux phys junk cb G gamma pl pr dir s) p k j i == fluxR p /\
   ctop' * (Ur p - Ul p) == 0)%Q.
Proof.
  intros Hk Hj Hi Hleft eos loc Dl Ul fluxL Dr Ur fluxR HU HF ctop'.
  rewrite LRToFlux_flux, (halo_face_of_bounds cb k j i Hk Hj Hi).
  unfold stored_flux. rewrite Hleft.
  simpl. unfold face_flux.
  fold eos. fold loc. fold Dl. fold Dr. fold Ul. fold Ur. fold fluxL. fold fluxR.
  rewrite HU, HF. repeat split; ring.
Qed.

Lemma LRToFlux_consistency_witness :
  Qeq (flux (LRToFlux sample_physics sample_junk sample_block tt 2%Q
               uniform_prims uniform_prims 2 sample_state) B2 3 1 4)
      (prim_to_flux sample_physics tt uniform_prims
         (get_state sample_physics tt uniform_prims 3 1 4 face2) 2%Q 3 1 4 face2 2 B2).
Proof.
  assert (Hk : cb_ks sample_block interior - 1 <= 3 <= cb_ke sample_block interior + 1)
    by (simpl; lia).
  assert (Hj : cb_js sample_block interior - 1 <= 1 <= cb_je sample_block interior + 1)
    by (simpl; lia).
  assert (Hi : cb_is sample_block interior - 1 <= 4 <= cb_ie sample_block interior + 1)
    by (simpl; lia).
  exact (proj1 (proj2
    (LRToFlux_consistency sample_physics sample_junk sample_block tt 2%Q
       uniform_prims uniform_prims 2 sample_state B2 3 1 4 3 0 4
       Hk Hj Hi eq_refl (Qeq_refl _) (Qeq_refl _)))).
Defined.





(** X9.  Over a position-independent physics layer, equal primitive values
    on the two sides of a face of the range the loop covers are enough: the
    stored flux is the physical flux of that state. *)
Lemma LRToFlux_consistency_equal_primitives (phys : PhysicsLayer)
    (junk : Indeterminate) (cb : IndexShape) (G : GRCoordinates phys)
    (gamma : Real) (pl pr : GridVars) (dir : Z) (s : FluxState) (p : prims)
    (k j i kl jl il : Z) :
  position_independent phys ->
  halo_face cb k j i = true ->
  left_after_switch junk dir k j i = (kl, jl, il) ->
  (forall q, pl q kl jl il = pr q k j i) ->
  let eos := CreateEOS phys gamma in
  let loc := loc_after_switch junk dir in
  (flux (LRToFlux phys junk cb G gamma pl pr dir s) p k j i ==
   prim_to_flux phys G pr (get_state phys G pr k j i loc) eos k j i loc dir p)%Q.
Proof.
  intros Hphys Hhalo Hleft Heq eos loc.
  rewrite LRToFlux_flux, Hhalo. unfold stored_flux. rewrite Hleft.
  simpl. unfold face_flux. fold eos. fold loc.
  rewrite !(Hphys G eos pl pr kl jl il k j i loc _ p Heq). ring.
Qed.

Example sample_physics_position_independent :
  position_independent sample_physics.
Proof.
  intros G eos P P' k j i k' j' i' loc dir q H. simpl. now rewrite H.
Qed.

(** C9.  [LRToFlux] stores a flux and a speed exactly at the faces of the
    interior widened by one zone on every side (k from ks-1 to ke+1, j from
    js-1 to je+1, i from is-1 to ie+1, interior bounds): there, every
    component of the flux and the speed of direction [dir] hold what the
    kernel computes; everywhere else, and for the speeds of the other
    directions, the contents are what they were. *)
Theorem LRToFlux_halo_range (phys : PhysicsLayer) (junk : Indeterminate)
    (cb : IndexShape) (G : GRCoordinates phys) (gamma : Real)
    (pl pr : GridVars) (dir : Z) (s : FluxState) (p : prims) (d k j i : Z) :
  let visited :=
    in_box (cb_ks cb interior - 1) (cb_ke cb interior + 1)
           (cb_js cb interior - 1) (cb_je cb interior + 1)
           (cb_is cb interior - 1) (cb_ie cb interior + 1) k j i in
  let c := left_after_switch junk dir k j i in
  flux (LRToFlux phys junk cb G gamma pl pr dir s) p k j i =
    (if visited
     then face_flux phys G (CreateEOS phys gamma) pl pr dir (loc_after_switch junk dir)
            (fst (fst c)) (snd (fst c)) (snd c) k j i p
     else flux s p k j i) /\
  ctop (LRToFlux phys junk cb G gamma pl pr dir s) d k j i =
    (if (d =? dir) && visited
     then face_ctop phys G (CreateEOS phys gamma) pl pr dir (loc_after_switch junk dir)
            (fst (fst c)) (snd (fst c)) (snd c) k j i
     else ctop s d k j i).
Proof.
  cbv zeta. split; [apply LRToFlux_flux | apply LRToFlux_ctop].
Qed.

(** On the sample block the face (3, 0, 4) lies two zones below the
    interior in direction 2 and is left alone, flux and speed. *)
Example sample_face_outside_halo :
  flux (LRToFlux sample_physics sample_junk sample_block tt 2%Q
          sample_pl sample_pr 2 sample_state) B2 3 0 4 = flux sample_state B2 3 0 4 /\
  ctop (LRToFlux sample_physics sample_junk sample_block tt 2%Q
          sample_pl sample_pr 2 sample_state) 2 3 0 4 = ctop sample_state 2 3 0 4.
Proof. split; vm_compute; reflexivity. Qed.

(** Each of the tags 1, 2, 3 selects one locus and one left zone, and no
    other tag selects any. *)
Lemma valid_dir_determines_face (dir k j i : Z) :
  (dir = 1 \/ dir = 2 \/ dir = 3) <->
  (exists l c, face_of_dir dir = Some l /\ left_of_face dir k j i = Some c).
Proof.
  split.
  - intros [-> | [-> | ->]]; simpl; eauto.
  - intros (l & c & Hl & _). unfold face_of_dir in Hl.
    destruct dir as [|[[|[]|]|[|[]|]|]|]; try discriminate; auto.
Qed.

(** C8, as the code has it.  For the tag 0 neither [switch] takes a case,
    no error is raised, and the loop stores at every face of its range a
    flux computed at whatever locus and left zone the unassigned locals
    happen to hold. *)
Theorem LRToFlux_invalid_dir_runs_silently (phys : PhysicsLayer)
    (junk : Indeterminate) (cb : IndexShape) (G : GRCoordinates phys)
    (gamma : Real) (pl pr : GridVars) (s : FluxState) (p : prims) (k j i : Z) :
  let c := indeterminate_left junk k j i in
  face_of_dir 0 = None /\
  left_of_face 0 k j i = None /\
  flux (LRToFlux phys junk cb G gamma pl pr 0 s) p k j i =
    (if halo_face cb k j i
     then face_flux phys G (CreateEOS phys gamma) pl pr 0 (indeterminate_loc junk)
            (fst (fst c)) (snd (fst c)) (snd c) k j i p
     else flux s p k j i).
Proof.
  cbv zeta. split; [reflexivity|]. split; [reflexivity|].
  apply LRToFlux_flux.
Qed.

Example sample_invalid_dir_stores_a_flux :
  Qeq (flux (LRToFlux sample_physics sample_junk sample_block tt 2%Q
               sample_pl sample_pr 0 sample_state) B2 3 1 4) 198%Q.
Proof. vm_compute. reflexivity. Qed.

(** ** The stage task list *)

Module HARMDriverFacts.

Import HARMDriver.
Open Scope N_scope.

Lemma TaskFunc_eqb_eq (f g : TaskFunc) : TaskFunc_eqb f g = true <-> f = g.
Proof.
  split.
  - destruct f, g; simpl; intros H; try discriminate H; reflexivity.
  - intros <-. destruct f; reflexivity.
Qed.

Lemma distinct_ids_spec (tl : TaskList) :
  distinct_ids tl = true ->
  forall t, In t tl ->
    task_id t <> 0 /\
    forall t', In t' tl -> t = t' \/ N.land (task_id t) (task_id t') = 0.
Proof.
  unfold distinct_ids. rewrite forallb_forall. intros H t Ht.
  specialize (H t Ht). apply andb_true_iff in H. destruct H as [H0 H1].
  split.
  - apply negb_true_iff, N.eqb_neq in H0. exact H0.
  - rewrite forallb_forall in H1. intros t' Ht'. specialize (H1 t' Ht').
    apply orb_true_iff in H1. destruct H1 as [H1 | H1].
    + left. destruct (Task_eq_dec t t'); [assumption | discriminate].
    + right. now apply N.eqb_eq.
Qed.

Section Running.

Variable tl : TaskList.
Hypothesis ids_ok : distinct_ids tl = true.

(** A task whose identifier is in [done] has been run. *)
Lemma runs_completed_in_trace (done : TaskID) (trace : list Task) :
  runs tl done trace ->
  forall t, In t tl -> subset (task_id t) done = true -> In t trace.
Proof.
  induction 1 as [|done trace t0 Hruns IH Ht0 Hnew Hdep]; intros t Ht Hsub.
  - unfold subset in Hsub. apply N.eqb_eq in Hsub.
    rewrite N.land_0_r in Hsub.
    destruct (distinct_ids_spec tl ids_ok t Ht) as [Hnz _].
    now symmetry in Hsub.
  - apply in_or_app.
    destruct (distinct_ids_spec tl ids_ok t Ht) as [_ Hd].
    destruct (Hd t0 Ht0) as [-> | Hdisj].
    + right. now left.
    + left. apply IH; [assumption|].
      unfold subset in *. apply N.eqb_eq in Hsub. apply N.eqb_eq.
      rewrite N.land_lor_distr_r, Hdisj, N.lor_0_r in Hsub. exact Hsub.
Qed.

(** A task runs after each task its dependency names. *)
Lemma runs_direct (done : TaskID) (trace : list Task) :
  runs tl done trace ->
  forall pre t post d,
    trace = pre ++ t :: post ->
    In d tl -> subset (task_id d) (task_dep t) = true -> In d pre.
Proof.
  induction 1 as [|done trace t0 Hruns IH Ht0 Hnew Hdep];
    intros pre t post d E Hd Hsub.
  - now destruct pre.
  - assert (Hpost : post = [] \/ exists post' x, post = post' ++ [x])
      by (clear; induction post using rev_ind; eauto).
    destruct Hpost as [-> | (post' & x & ->)].
    + apply (app_inj_tail trace pre t0 t) in E. destruct E as [-> ->].
      apply (runs_completed_in_trace done pre Hruns d Hd).
      unfold subset, CheckDependencies in *.
      apply N.eqb_eq in Hsub, Hdep. apply N.eqb_eq.
      rewrite <- Hsub at 1.
      rewrite <- N.land_assoc, (N.land_comm (task_dep t)), Hdep.
      exact Hsub.
    + change (pre ++ t :: post' ++ [x]) with (pre ++ (t :: post') ++ [x]) in E.
      rewrite app_assoc in E.
      apply app_inj_tail in E. destruct E as [E _].
      exact (IH pre t post' d E Hd Hsub).
Qed.

Lemma runs_trace_in_list (done : TaskID) (trace : list Task) :
  runs tl done trace -> forall t, In t trace -> In t tl.
Proof.
  induction 1 as [|done trace t0 Hruns IH Ht0 Hnew Hdep]; intros t Ht.
  - destruct Ht.
  - apply in_app_or in Ht. destruct Ht as [Ht | [<- | []]]; auto.
Qed.

Lemma depends_directly_ran_before (g f : TaskFunc)
    (done : TaskID) (trace : list Task) :
  depends_directly tl g f = true ->
  runs tl done trace -> ran_before trace f g.
Proof.
  intros Hdep Hruns pre t post E Hg.
  assert (Ht : In t tl).
  { apply (runs_trace_in_list done trace Hruns). rewrite E.
    apply in_or_app. right. now left. }
  unfold depends_directly in Hdep. rewrite forallb_forall in Hdep.
  specialize (Hdep t Ht). apply orb_true_iff in Hdep.
  destruct Hdep as [Hn | Hex].
  - apply negb_true_iff in Hn.
    apply TaskFunc_eqb_eq in Hg. congruence.
  - apply existsb_exists in Hex. destruct Hex as (d & Hd & Hfd).
    apply andb_true_iff in Hfd. destruct Hfd as [Hf Hsub].
    exists d. split.
    + exact (runs_direct done trace Hruns pre t post d E Hd Hsub).
    + now apply TaskFunc_eqb_eq.
Qed.

End Running.

Lemma ran_before_trans (trace : list Task) (f g h : TaskFunc) :
  ran_before trace f g -> ran_before trace g h -> ran_before trace f h.
Proof.
  intros Hfg Hgh pre t post E Hh.
  destruct (Hgh pre t post E Hh) as (m & Hm & Hmg).
  apply in_split in Hm. destruct Hm as (pre1 & post1 & ->).
  rewrite <- app_assoc in E. simpl in E.
  destruct (Hfg pre1 m _ E Hmg) as (d & Hd & Hdf).
  exists d. split; [|assumption].
  apply in_or_app. now left.
Qed.

Lemma runs_trace_completed (tl : TaskList) (done : TaskID) (trace : list Task) :
  runs tl done trace ->
  forall t, In t trace -> subset (task_id t) done = true.
Proof.
  induction 1 as [|done trace t0 Hruns IH Ht0 Hnew Hdep]; intros t Ht.
  - destruct Ht.
  - unfold subset. apply N.eqb_eq. rewrite N.land_lor_distr_r.
    apply in_app_or in Ht. destruct Ht as [Ht | [<- | []]].
    + specialize (IH t Ht). unfold subset in IH. apply N.eqb_eq in IH.
      rewrite IH. apply N.bits_inj. intros n.
      rewrite N.lor_spec, N.land_spec.
      now destruct (N.testbit (task_id t) n), (N.testbit (task_id t0) n).
    + rewrite N.land_diag. apply N.bits_inj. intros n.
      rewrite N.lor_spec, N.land_spec.
      now destruct (N.testbit (task_id t0) n), (N.testbit done n).
Qed.

(** No task runs twice. *)
Lemma runs_NoDup (tl : TaskList) (done : TaskID) (trace : list Task) :
  distinct_ids tl = true -> runs tl done trace -> NoDup trace.
Proof.
  intros ids_ok. induction 1 as [|done trace t0 Hruns IH Ht0 Hnew Hdep].
  - constructor.
  - apply NoDup_rev in IH. rewrite <- (rev_involutive (trace ++ [t0])).
    apply NoDup_rev. rewrite rev_app_distr. simpl. constructor; [|assumption].
    rewrite <- in_rev. intros Hin.
    pose proof (runs_trace_completed tl done trace Hruns t0 Hin) as Hsub.
    unfold subset in Hsub. apply N.eqb_eq in Hsub.
    rewrite N.land_comm, Hnew in Hsub.
    destruct (distinct_ids_spec tl ids_ok t0 Ht0) as [Hnz _].
    now symmetry in Hsub.
Qed.

Lemma runs_at_most_once (tl : TaskList) (done : TaskID) (trace : list Task)
    (f : TaskFunc) :
  distinct_ids tl = true -> runs tl done trace ->
  (length (tasks_of trace f) <= length (tasks_of tl f))%nat.
Proof.
  intros ids_ok Hruns. apply NoDup_incl_length.
  - apply NoDup_filter. exact (runs_NoDup tl done trace ids_ok Hruns).
  - intros t Ht. unfold tasks_of in *. apply filter_In in Ht.
    destruct Ht as [Ht Hf]. apply filter_In. split; [|assumption].
    exact (runs_trace_in_list tl done trace Hruns t Ht).
Qed.

Lemma run_in_order_runs (tl : TaskList) (todo : list Task) :
  forall done trace done',
    runs tl done trace ->
    (forall t, In t todo -> In t tl) ->
    run_in_order done todo = Some done' ->
    runs tl done' (trace ++ todo).
Proof.
  induction todo as [|t todo IH]; intros done trace done' Hruns Hin Hrun; simpl in Hrun.
  - inversion Hrun; subst. now rewrite app_nil_r.
  - destruct (N.land done (task_id t) =? 0) eqn:Hnew; [|discriminate].
    destruct (CheckDependencies done (task_dep t)) eqn:Hdep; [|discriminate].
    simpl in Hrun. apply N.eqb_eq in Hnew.
    change (t :: todo) with ([t] ++ todo). rewrite app_assoc.
    apply (IH (N.lor done (task_id t))); [|intros; apply Hin; now right|assumption].
    apply runs_step; auto. apply Hin. now left.
Qed.

Lemma run_in_order_runs_all (tl : TaskList) (done : TaskID) :
  run_in_order 0 tl = Some done -> runs tl done tl.
Proof.
  intros H.
  exact (run_in_order_runs tl tl 0 [] done (runs_start tl) (fun t Ht => Ht) H).
Qed.

(** The tasks of a final stage, run in the order they were added. *)
Lemma final_stage_runs_in_order :
  runs (MakeTaskList 2 true 2) 1048575 (MakeTaskList 2 true 2).
Proof. apply run_in_order_runs_all. vm_compute. reflexivity. Qed.

Close Scope N_scope.

End HARMDriverFacts.

(** C7.  In the task list of every stage: there is exactly one [FluxCT]
    task and exactly one task per directional flux; the dependency of
    [FluxCT] is the union of the three directional flux tasks, each of which
    depends on the start of the receive only, so that none of the three
    waits for another; and flux divergence, source term, container update,
    boundary fill, boundary conditions and primitive recovery each wait for
    the one before, the first of them for [FluxCT].  Hence however the list
    is run, [FluxCT] runs at most once, after the three directional fluxes,
    and the later phases run after it in that order. *)
Theorem MakeTaskList_orders_FluxCT (nstages : Z) (adaptive : bool) (stage : Z) :
  let tl := HARMDriver.MakeTaskList nstages adaptive stage in
  let n := fun f => length (HARMDriver.tasks_of tl f) in
  let id := HARMDriver.ids_of tl in
  let dep := HARMDriver.dep_of tl in
  let after := fun g f => HARMDriver.sequenced_after tl g f = true in
  let free := fun f g => HARMDriver.independent tl f g = true in
  (n HARMDriver.GRMHD_FluxCT = 1 /\
   n HARMDriver.GRMHD_CalculateFlux1 = 1 /\
   n HARMDriver.GRMHD_CalculateFlux2 = 1 /\
   n HARMDriver.GRMHD_CalculateFlux3 = 1)%nat /\
  (dep HARMDriver.GRMHD_FluxCT =
     N.lor (N.lor (id HARMDriver.GRMHD_CalculateFlux1)
                  (id HARMDriver.GRMHD_CalculateFlux2))
           (id HARMDriver.GRMHD_CalculateFlux3) /\
   dep HARMDriver.GRMHD_CalculateFlux1 = id HARMDriver.Container_StartReceivingTask /\
   dep HARMDriver.GRMHD_CalculateFlux2 = id HARMDriver.Container_StartReceivingTask /\
   dep HARMDriver.GRMHD_CalculateFlux3 = id HARMDriver.Container_StartReceivingTask) /\
  (free HARMDriver.GRMHD_CalculateFlux1 HARMDriver.GRMHD_CalculateFlux2 /\
   free HARMDriver.GRMHD_CalculateFlux1 HARMDriver.GRMHD_CalculateFlux3 /\
   free HARMDriver.GRMHD_CalculateFlux2 HARMDriver.GRMHD_CalculateFlux3) /\
  (after HARMDriver.GRMHD_FluxCT HARMDriver.GRMHD_CalculateFlux1 /\
   after HARMDriver.GRMHD_FluxCT HARMDriver.GRMHD_CalculateFlux2 /\
   after HARMDriver.GRMHD_FluxCT HARMDriver.GRMHD_CalculateFlux3 /\
   after HARMDriver.Update_FluxDivergence HARMDriver.GRMHD_FluxCT /\
   after HARMDriver.GRMHD_SourceTerm HARMDriver.Update_FluxDivergence /\
   after HARMDriver.UpdateContainer HARMDriver.GRMHD_SourceTerm /\
   after HARMDriver.Container_SetBoundariesTask HARMDriver.UpdateContainer /\
   after HARMDriver.ApplyBoundaryConditions HARMDriver.Container_SetBoundariesTask /\
   after HARMDriver.FillDerived HARMDriver.ApplyBoundaryConditions) /\
  (forall done trace, HARMDriver.runs tl done trace ->
     let before := HARMDriver.ran_before trace in
     (length (HARMDriver.tasks_of trace HARMDriver.GRMHD_FluxCT) <= 1)%nat /\
     before HARMDriver.GRMHD_CalculateFlux1 HARMDriver.GRMHD_FluxCT /\
     before HARMDriver.GRMHD_CalculateFlux2 HARMDriver.GRMHD_FluxCT /\
     before HARMDriver.GRMHD_CalculateFlux3 HARMDriver.GRMHD_FluxCT /\
     before HARMDriver.GRMHD_FluxCT HARMDriver.Update_FluxDivergence /\
     before HARMDriver.Update_FluxDivergence HARMDriver.GRMHD_SourceTerm /\
     before HARMDriver.GRMHD_SourceTerm HARMDriver.UpdateContainer /\
     before HARMDriver.UpdateContainer HARMDriver.Container_SetBoundariesTask /\
     before HARMDriver.Container_SetBoundariesTask HARMDriver.ApplyBoundaryConditions /\
     before HARMDriver.ApplyBoundaryConditions HARMDriver.FillDerived).
Proof.
  assert (Hcases :
    exists tl, HARMDriver.MakeTaskList nstages adaptive stage = tl /\
      (tl = HARMDriver.MakeTaskList 2 false 1 \/
       tl = HARMDriver.MakeTaskList 2 false 2 \/
       tl = HARMDriver.MakeTaskList 2 true 2)).
  { eexists. split; [reflexivity|].
    unfold HARMDriver.MakeTaskList.
    destruct (stage =? nstages); [destruct adaptive|]; cbv; auto. }
  destruct Hcases as (tl0 & -> & Hcases). cbv zeta.
  assert (Hids : HARMDriver.distinct_ids tl0 = true)
    by (destruct Hcases as [-> | [-> | ->]]; vm_compute; reflexivity).
  split; [|split; [|split; [|split]]].
  - destruct Hcases as [-> | [-> | ->]]; vm_compute; auto.
  - destruct Hcases as [-> | [-> | ->]]; vm_compute; auto.
  - destruct Hcases as [-> | [-> | ->]]; vm_compute; auto.
  - destruct Hcases as [-> | [-> | ->]]; vm_compute; auto 10.
  - intros done trace Hruns.
    assert (D : forall g f, HARMDriver.depends_directly tl0 g f = true ->
                            HARMDriver.ran_before trace f g).
    { intros g f H.
      exact (HARMDriverFacts.depends_directly_ran_before tl0 Hids g f done trace H Hruns). }
    assert (H1 : (length (HARMDriver.tasks_of tl0 HARMDriver.GRMHD_FluxCT) = 1)%nat)
      by (destruct Hcases as [-> | [-> | ->]]; vm_compute; reflexivity).
    split.
    { rewrite <- H1. exact (HARMDriverFacts.runs_at_most_once tl0 done trace _ Hids Hruns). }
    repeat split.
    + apply D. destruct Hcases as [-> | [-> | ->]]; vm_compute; reflexivity.
    + apply D. destruct Hcases as [-> | [-> | ->]]; vm_compute; reflexivity.
    + apply D. destruct Hcases as [-> | [-> | ->]]; vm_compute; reflexivity.
    + apply (HARMDriverFacts.ran_before_trans trace _
               HARMDriver.Container_ReceiveFluxCorrectionTask);
        apply D; destruct Hcases as [-> | [-> | ->]]; vm_compute; reflexivity.
    + apply D. destruct Hcases as [-> | [-> | ->]]; vm_compute; reflexivity.
    + apply D. destruct Hcases as [-> | [-> | ->]]; vm_compute; reflexivity.
    + apply (HARMDriverFacts.ran_before_trans trace _
               HARMDriver.Container_ReceiveBoundaryBuffersTask);
        apply D; destruct Hcases as [-> | [-> | ->]]; vm_compute; reflexivity.
    + apply (HARMDriverFacts.ran_before_trans trace _
               HARMDriver.ProlongateBoundaries);
        apply D; destruct Hcases as [-> | [-> | ->]]; vm_compute; reflexivity.
    + apply (HARMDriverFacts.ran_before_trans trace _
               HARMDriver.ApplyCustomBoundaries);
        apply D; destruct Hcases as [-> | [-> | ->]]; vm_compute; reflexivity.
Qed.

Lemma MakeTaskList_orders_FluxCT_witness :
  HARMDriver.ran_before (HARMDriver.MakeTaskList 2 true 2)
    HARMDriver.GRMHD_FluxCT HARMDriver.Update_FluxDivergence.
Proof.
  destruct (MakeTaskList_orders_FluxCT 2 true 2) as (_ & _ & _ & _ & H).
  exact (proj1 (proj2 (proj2 (proj2 (proj2
           (H _ _ HARMDriverFacts.final_stage_runs_in_order)))))).
Defined.

(** * Further properties *)

(** ** [FluxCT]: degenerate blocks, linearity, stencil *)

Lemma FluxCT_outside_rewrite_range (cb : IndexShape) (rc : Fluxes)
    (p : prims) (k j i : Z) :
  rewritten_cell cb k j i = false ->
  F1 (FluxCT_fluxes cb rc) p k j i = F1 rc p k j i /\
  F2 (FluxCT_fluxes cb rc) p k j i = F2 rc p k j i /\
  F3 (FluxCT_fluxes cb rc) p k j i = F3 rc p k j i.
Proof.
  intros H. rewrite FluxCT_F1, FluxCT_F2, FluxCT_F3, H, andb_false_r. auto.
Qed.

(** X1.  When the block has a single layer of cells in some direction, the
    rewrite loop visits no location and [FluxCT] hands the three flux
    fields back as they were, magnetic components included. *)
Theorem FluxCT_single_layer_unchanged (cb : IndexShape) (rc : Fluxes)
    (p : prims) (k j i : Z) :
  cb_ke cb entire <= cb_ks cb entire \/
  cb_je cb entire <= cb_js cb entire \/
  cb_ie cb entire <= cb_is cb entire ->
  F1 (FluxCT_fluxes cb rc) p k j i = F1 rc p k j i /\
  F2 (FluxCT_fluxes cb rc) p k j i = F2 rc p k j i /\
  F3 (FluxCT_fluxes cb rc) p k j i = F3 rc p k j i.
Proof.
  intros H. apply FluxCT_outside_rewrite_range.
  destruct (rewritten_cell cb k j i) eqn:E; [|reflexivity].
  unfold rewritten_cell in E. apply in_box_true in E. lia.
Qed.

Lemma FluxCT_single_layer_unchanged_witness :
  cb_ke flat_block entire <= cb_ks flat_block entire /\
  F1 (FluxCT_fluxes flat_block sample_fluxes) B2 0 1 2 = F1 sample_fluxes B2 0 1 2.
Proof.
  assert (H : cb_ke flat_block entire <= cb_ks flat_block entire) by (simpl; lia).
  split; [exact H|].
  exact (proj1 (FluxCT_single_layer_unchanged flat_block sample_fluxes B2 0 1 2
                  (or_introl H))).
Defined.

(** X2.  [FluxCT] is linear in the fluxes it is given: applied to
    [a * F + b * G] it yields [a] times its result on [F] plus [b] times
    its result on [G], for every component at every location. *)
Theorem FluxCT_linear (cb : IndexShape) (a b : Real) (F G : Fluxes)
    (p : prims) (k j i : Z) :
  (F1 (FluxCT_fluxes cb (Fluxes_lincomb a b F G)) p k j i ==
     a * F1 (FluxCT_fluxes cb F) p k j i + b * F1 (FluxCT_fluxes cb G) p k j i /\
   F2 (FluxCT_fluxes cb (Fluxes_lincomb a b F G)) p k j i ==
     a * F2 (FluxCT_fluxes cb F) p k j i + b * F2 (FluxCT_fluxes cb G) p k j i /\
   F3 (FluxCT_fluxes cb (Fluxes_lincomb a b F G)) p k j i ==
     a * F3 (FluxCT_fluxes cb F) p k j i + b * F3 (FluxCT_fluxes cb G) p k j i)%Q.
Proof.
  rewrite !FluxCT_F1, !FluxCT_F2, !FluxCT_F3.
  destruct (is_magnetic p && rewritten_cell cb k j i).
  - unfold rewritten1, rewritten2, rewritten3.
    rewrite !flux_ct_emf_pass_emf1, !flux_ct_emf_pass_emf2, !flux_ct_emf_pass_emf3.
    destruct (emf_cell cb k j i), (emf_cell cb k (j+1) i),
      (emf_cell cb (k+1) j i), (emf_cell cb k j (i+1));
      destruct p; simpl; repeat split; ring.
  - simpl. repeat split; ring.
Qed.

Section Stencil.

Variable cb : IndexShape.
Variables F G : Fluxes.
Variables k j i : Z.

(** The two flux sets agree on the 3 x 3 x 3 block of locations around
    (k, j, i). *)
Hypothesis agree : forall p k' j' i',
  k - 1 <= k' <= k + 1 -> j - 1 <= j' <= j + 1 -> i - 1 <= i' <= i + 1 ->
  F1 F p k' j' i' = F1 G p k' j' i' /\
  F2 F p k' j' i' = F2 G p k' j' i' /\
  F3 F p k' j' i' = F3 G p k' j' i'.

Lemma agree1 p k' j' i' :
  k - 1 <= k' <= k + 1 -> j - 1 <= j' <= j + 1 -> i - 1 <= i' <= i + 1 ->
  F1 F p k' j' i' = F1 G p k' j' i'.
Proof. intros. now apply agree. Qed.

Lemma agree2 p k' j' i' :
  k - 1 <= k' <= k + 1 -> j - 1 <= j' <= j + 1 -> i - 1 <= i' <= i + 1 ->
  F2 F p k' j' i' = F2 G p k' j' i'.
Proof. intros. now apply agree. Qed.

Lemma agree3 p k' j' i' :
  k - 1 <= k' <= k + 1 -> j - 1 <= j' <= j + 1 -> i - 1 <= i' <= i + 1 ->
  F3 F p k' j' i' = F3 G p k' j' i'.
Proof. intros. now apply agree. Qed.

(** The EMFs of the two flux sets agree at (k, j, i) and at its upper
    neighbour in each direction. *)
Lemma emf_agree (dk dj di : Z) :
  0 <= dk <= 1 -> 0 <= dj <= 1 -> 0 <= di <= 1 ->
  emf1 (flux_ct_emf_pass cb F) (k + dk) (j + dj) (i + di) =
    emf1 (flux_ct_emf_pass cb G) (k + dk) (j + dj) (i + di) /\
  emf2 (flux_ct_emf_pass cb F) (k + dk) (j + dj) (i + di) =
    emf2 (flux_ct_emf_pass cb G) (k + dk) (j + dj) (i + di) /\
  emf3 (flux_ct_emf_pass cb F) (k + dk) (j + dj) (i + di) =
    emf3 (flux_ct_emf_pass cb G) (k + dk) (j + dj) (i + di).
Proof.
  intros Hk Hj Hi.
  rewrite !flux_ct_emf_pass_emf1, !flux_ct_emf_pass_emf2, !flux_ct_emf_pass_emf3.
  destruct (emf_cell cb (k + dk) (j + dj) (i + di)); [|auto].
  rewrite !agree1, !agree2, !agree3 by lia. auto.
Qed.

Lemma FluxCT_stencil (p : prims) :
  F1 (FluxCT_fluxes cb F) p k j i = F1 (FluxCT_fluxes cb G) p k j i /\
  F2 (FluxCT_fluxes cb F) p k j i = F2 (FluxCT_fluxes cb G) p k j i /\
  F3 (FluxCT_fluxes cb F) p k j i = F3 (FluxCT_fluxes cb G) p k j i.
Proof.
  rewrite !FluxCT_F1, !FluxCT_F2, !FluxCT_F3.
  destruct (is_magnetic p && rewritten_cell cb k j i).
  - unfold rewritten1, rewritten2, rewritten3.
    pose proof (emf_agree 0 0 0) as E000. pose proof (emf_agree 1 0 0) as E100.
    pose proof (emf_agree 0 1 0) as E010. pose proof (emf_agree 0 0 1) as E001.
    rewrite !Z.add_0_r in *.
    destruct E000 as (A1 & A2 & A3); try lia.
    destruct E100 as (B1' & B2' & B3'); try lia.
    destruct E010 as (C1 & C2 & C3); try lia.
    destruct E001 as (D1 & D2 & D3); try lia.
    destruct p; rewrite ?A1, ?A2, ?A3, ?B1', ?B2', ?B3', ?C1, ?C2, ?C3, ?D1, ?D2, ?D3;
      auto.
  - rewrite agree1, agree2, agree3 by lia. auto.
Qed.

(** The same holds on the upper face of the cell in each direction. *)
Lemma FluxCT_stencil_upper_faces (p : prims) :
  F1 (FluxCT_fluxes cb F) p k j (i + 1) = F1 (FluxCT_fluxes cb G) p k j (i + 1) /\
  F2 (FluxCT_fluxes cb F) p k (j + 1) i = F2 (FluxCT_fluxes cb G) p k (j + 1) i /\
  F3 (FluxCT_fluxes cb F) p (k + 1) j i = F3 (FluxCT_fluxes cb G) p (k + 1) j i.
Proof.
  pose proof (emf_agree 0 0 0) as E000. pose proof (emf_agree 1 0 0) as E100.
  pose proof (emf_agree 0 1 0) as E010. pose proof (emf_agree 0 0 1) as E001.
  pose proof (emf_agree 1 1 0) as E110. pose proof (emf_agree 1 0 1) as E101.
  pose proof (emf_agree 0 1 1) as E011.
  rewrite !Z.add_0_r in *.
  destruct E000 as (A1 & A2 & A3); try lia.
  destruct E100 as (B1' & B2' & B3'); try lia.
  destruct E010 as (C1 & C2 & C3); try lia.
  destruct E001 as (D1 & D2 & D3); try lia.
  destruct E110 as (E1 & E2 & E3); try lia.
  destruct E101 as (H1 & H2 & H3); try lia.
  destruct E011 as (I1 & I2 & I3); try lia.
  rewrite !FluxCT_F1, !FluxCT_F2, !FluxCT_F3.
  unfold rewritten1, rewritten2, rewritten3.
  repeat split.
  - destruct (is_magnetic p && rewritten_cell cb k j (i + 1));
      [|apply agree1; lia].
    destruct p; rewrite ?D2, ?D3, ?H2, ?I3; auto.
  - destruct (is_magnetic p && rewritten_cell cb k (j + 1) i);
      [|apply agree2; lia].
    destruct p; rewrite ?C1, ?C3, ?E1, ?I3; auto.
  - destruct (is_magnetic p && rewritten_cell cb (k + 1) j i);
      [|apply agree3; lia].
    destruct p; rewrite ?B1', ?B2', ?E1, ?H2; auto.
Qed.

End Stencil.

(** X3.  The result of [FluxCT] at a location depends on the fluxes it is
    given only within one location of it in each direction: two flux sets
    that agree on the 3 x 3 x 3 block around (k, j, i) give the same three
    fluxes at (k, j, i), in every component. *)
Theorem FluxCT_domain_of_dependence (cb : IndexShape) (F G : Fluxes)
    (p : prims) (k j i : Z) :
  (forall q k' j' i',
     k - 1 <= k' <= k + 1 -> j - 1 <= j' <= j + 1 -> i - 1 <= i' <= i + 1 ->
     F1 F q k' j' i' = F1 G q k' j' i' /\
     F2 F q k' j' i' = F2 G q k' j' i' /\
     F3 F q k' j' i' = F3 G q k' j' i') ->
  F1 (FluxCT_fluxes cb F) p k j i = F1 (FluxCT_fluxes cb G) p k j i /\
  F2 (FluxCT_fluxes cb F) p k j i = F2 (FluxCT_fluxes cb G) p k j i /\
  F3 (FluxCT_fluxes cb F) p k j i = F3 (FluxCT_fluxes cb G) p k j i.
Proof.
  intros H. exact (FluxCT_stencil cb F G k j i H p).
Qed.

Lemma FluxCT_domain_of_dependence_witness :
  F3 (FluxCT_fluxes sample_block sample_fluxes) B1 2 2 2 =
  F3 (FluxCT_fluxes sample_block sample_fluxes_stale) B1 2 2 2.
Proof.
  refine (proj2 (proj2
    (FluxCT_domain_of_dependence sample_block sample_fluxes sample_fluxes_stale
       B1 2 2 2 _))).
  intros q k' j' i' Hk Hj Hi.
  assert (H : halo_face sample_block k' j' i' = true)
    by (apply halo_face_of_bounds; simpl; lia).
  unfold sample_fluxes_stale, F1, F2, F3. rewrite H. auto.
Defined.

(** X4.  Away from the first and the last layer of the block, [FluxCT]
    hands back unchanged a magnetic flux set that is uniform around the
    location and antisymmetric between directions (F1(B2) = -F2(B1),
    F1(B3) = -F3(B1), F2(B3) = -F3(B2)). *)
Theorem FluxCT_keeps_uniform_antisymmetric_fluxes (cb : IndexShape) (F : Fluxes)
    (a b c : Real) (k j i : Z) :
  cb_ks cb entire + 1 <= k <= cb_ke cb entire - 1 ->
  cb_js cb entire + 1 <= j <= cb_je cb entire - 1 ->
  cb_is cb entire + 1 <= i <= cb_ie cb entire - 1 ->
  (forall k' j' i',
     k - 1 <= k' <= k + 1 -> j - 1 <= j' <= j + 1 -> i - 1 <= i' <= i + 1 ->
     F1 F B2 k' j' i' = a /\ F2 F B1 k' j' i' = (- a)%Q /\
     F1 F B3 k' j' i' = b /\ F3 F B1 k' j' i' = (- b)%Q /\
     F2 F B3 k' j' i' = c /\ F3 F B2 k' j' i' = (- c)%Q) ->
  (F1 (FluxCT_fluxes cb F) B2 k j i == a /\
   F2 (FluxCT_fluxes cb F) B1 k j i == - a /\
   F1 (FluxCT_fluxes cb F) B3 k j i == b /\
   F3 (FluxCT_fluxes cb F) B1 k j i == - b /\
   F2 (FluxCT_fluxes cb F) B3 k j i == c /\
   F3 (FluxCT_fluxes cb F) B2 k j i == - c)%Q.
Proof.
  intros Hk Hj Hi H.
  assert (H12 : forall k' j' i',
            k - 1 <= k' <= k + 1 -> j - 1 <= j' <= j + 1 -> i - 1 <= i' <= i + 1 ->
            F1 F B2 k' j' i' = a) by (intros; now apply H).
  assert (H21 : forall k' j' i',
            k - 1 <= k' <= k + 1 -> j - 1 <= j' <= j + 1 -> i - 1 <= i' <= i + 1 ->
            F2 F B1 k' j' i' = (- a)%Q) by (intros; now apply H).
  assert (H13 : forall k' j' i',
            k - 1 <= k' <= k + 1 -> j - 1 <= j' <= j + 1 -> i - 1 <= i' <= i + 1 ->
            F1 F B3 k' j' i' = b) by (intros; now apply H).
  assert (H31 : forall k' j' i',
            k - 1 <= k' <= k + 1 -> j - 1 <= j' <= j + 1 -> i - 1 <= i' <= i + 1 ->
            F3 F B1 k' j' i' = (- b)%Q) by (intros; now apply H).
  assert (H23 : forall k' j' i',
            k - 1 <= k' <= k + 1 -> j - 1 <= j' <= j + 1 -> i - 1 <= i' <= i + 1 ->
            F2 F B3 k' j' i' = c) by (intros; now apply H).
  assert (H32 : forall k' j' i',
            k - 1 <= k' <= k + 1 -> j - 1 <= j' <= j + 1 -> i - 1 <= i' <= i + 1 ->
            F3 F B2 k' j' i' = (- c)%Q) by (intros; now apply H).
  assert (Hr : rewritten_cell cb k j i = true)
    by (apply rewritten_cell_true; simpl in *; lia).
  assert (He : forall dk dj di, 0 <= dk <= 1 -> 0 <= dj <= 1 -> 0 <= di <= 1 ->
                 dk + dj + di <= 1 ->
                 emf_cell cb (k + dk) (j + dj) (i + di) = true)
    by (intros; apply emf_cell_true; simpl in *; lia).
  pose proof (He 0 0 0) as E0. pose proof (He 1 0 0) as Ek.
  pose proof (He 0 1 0) as Ej. pose proof (He 0 0 1) as Ei.
  rewrite !Z.add_0_r in *.
  rewrite !FluxCT_F1, !FluxCT_F2, !FluxCT_F3, Hr. simpl.
  rewrite !flux_ct_emf_pass_emf1, !flux_ct_emf_pass_emf2, !flux_ct_emf_pass_emf3.
  rewrite E0, Ek, Ej, Ei by lia.
  rewrite !H12, !H21, !H13, !H31, !H23, !H32 by lia.
  repeat split; ring.
Qed.

Lemma FluxCT_keeps_uniform_antisymmetric_fluxes_witness :
  (F1 (FluxCT_fluxes sample_block uniform_fluxes) B2 2 3 2 == 3 /\
   F2 (FluxCT_fluxes sample_block uniform_fluxes) B1 2 3 2 == - (3))%Q.
Proof.
  assert (Hb : cb_ks sample_block entire + 1 <= 2 <= cb_ke sample_block entire - 1)
    by (simpl; lia).
  assert (Hb' : cb_js sample_block entire + 1 <= 3 <= cb_je sample_block entire - 1)
    by (simpl; lia).
  destruct (FluxCT_keeps_uniform_antisymmetric_fluxes sample_block uniform_fluxes
              3%Q 5%Q 7%Q 2 3 2 Hb Hb' Hb
              (fun _ _ _ _ _ _ =>
                 conj eq_refl (conj eq_refl (conj eq_refl
                   (conj eq_refl (conj eq_refl eq_refl))))))
    as (H1 & H2 & _).
  split; [exact H1 | exact H2].
Defined.

(** On the first layer the rewrite reads EMFs that were never assigned, and
    the same uniform flux set does not come back unchanged. *)
Example uniform_fluxes_changed_on_first_layer :
  ~ (F1 (FluxCT_fluxes sample_block uniform_fluxes) B2 2 0 2 == 3)%Q.
Proof. vm_compute. discriminate. Qed.

(** X5.  The fluxes [FluxCT] leaves on the six faces of an interior cell
    depend on the fluxes it is given only at the faces of the interior
    widened by one zone on every side: two flux sets that agree there give
    the same six face fluxes, in every component. *)
Theorem FluxCT_interior_faces_depend_on_halo (cb : IndexShape) (F G : Fluxes)
    (p : prims) (k j i : Z) :
  interior_cell cb k j i ->
  (forall q k' j' i', halo_face cb k' j' i' = true ->
     F1 F q k' j' i' = F1 G q k' j' i' /\
     F2 F q k' j' i' = F2 G q k' j' i' /\
     F3 F q k' j' i' = F3 G q k' j' i') ->
  (F1 (FluxCT_fluxes cb F) p k j i = F1 (FluxCT_fluxes cb G) p k j i /\
   F2 (FluxCT_fluxes cb F) p k j i = F2 (FluxCT_fluxes cb G) p k j i /\
   F3 (FluxCT_fluxes cb F) p k j i = F3 (FluxCT_fluxes cb G) p k j i) /\
  (F1 (FluxCT_fluxes cb F) p k j (i + 1) = F1 (FluxCT_fluxes cb G) p k j (i + 1) /\
   F2 (FluxCT_fluxes cb F) p k (j + 1) i = F2 (FluxCT_fluxes cb G) p k (j + 1) i /\
   F3 (FluxCT_fluxes cb F) p (k + 1) j i = F3 (FluxCT_fluxes cb G) p (k + 1) j i).
Proof.
  intros Hint Hhalo.
  assert (Hnear : forall q k' j' i',
            k - 1 <= k' <= k + 1 -> j - 1 <= j' <= j + 1 -> i - 1 <= i' <= i + 1 ->
            F1 F q k' j' i' = F1 G q k' j' i' /\
            F2 F q k' j' i' = F2 G q k' j' i' /\
            F3 F q k' j' i' = F3 G q k' j' i').
  { intros q k' j' i' Hk Hj Hi. apply Hhalo. apply halo_face_of_bounds;
      unfold interior_cell in Hint; lia. }
  split.
  - exact (FluxCT_stencil cb F G k j i Hnear p).
  - exact (FluxCT_stencil_upper_faces cb F G k j i Hnear p).
Qed.

Lemma FluxCT_interior_faces_depend_on_halo_witness :
  interior_cell sample_block 3 2 3 /\
  F1 (FluxCT_fluxes sample_block sample_fluxes) B2 3 2 4 =
  F1 (FluxCT_fluxes sample_block sample_fluxes_stale) B2 3 2 4.
Proof.
  assert (Hint : interior_cell sample_block 3 2 3)
    by (unfold interior_cell; simpl; lia).
  split; [exact Hint|].
  refine (proj1 (proj2
    (FluxCT_interior_faces_depend_on_halo sample_block sample_fluxes
       sample_fluxes_stale B2 3 2 3 Hint _))).
  intros q k' j' i' H. unfold sample_fluxes_stale, F1, F2, F3.
  rewrite H. auto.
Defined.

(** Beyond the widened interior the two sample flux sets do differ. *)
Example sample_fluxes_stale_differs :
  ~ (F1 sample_fluxes B2 0 0 0 == F1 sample_fluxes_stale B2 0 0 0)%Q.
Proof. vm_compute. discriminate. Qed.

(** ** [LRToFlux] followed by [FluxCT] *)

(** X6.  When the three flux views [FluxCT] works on are the ones
    [LRToFlux] filled for directions 1, 2 and 3, the fluxes left on the six
    faces of an interior cell do not depend on what the views held before
    [LRToFlux] ran: the locations [LRToFlux] never writes do not reach
    them. *)
Theorem LRToFlux_then_FluxCT_forgets_stale_fluxes
    (phys : PhysicsLayer) (junk : Indeterminate) (cb : IndexShape)
    (G : GRCoordinates phys) (gamma : Real)
    (pl1 pr1 pl2 pr2 pl3 pr3 : GridVars)
    (s1 s2 s3 t1 t2 t3 : FluxState) (p : prims) (k j i : Z) :
  interior_cell cb k j i ->
  let filled := fun a b c =>
    mkFluxes (flux (LRToFlux phys junk cb G gamma pl1 pr1 1 a))
             (flux (LRToFlux phys junk cb G gamma pl2 pr2 2 b))
             (flux (LRToFlux phys junk cb G gamma pl3 pr3 3 c)) in
  (F1 (FluxCT_fluxes cb (filled s1 s2 s3)) p k j i =
     F1 (FluxCT_fluxes cb (filled t1 t2 t3)) p k j i /\
   F2 (FluxCT_fluxes cb (filled s1 s2 s3)) p k j i =
     F2 (FluxCT_fluxes cb (filled t1 t2 t3)) p k j i /\
   F3 (FluxCT_fluxes cb (filled s1 s2 s3)) p k j i =
     F3 (FluxCT_fluxes cb (filled t1 t2 t3)) p k j i) /\
  (F1 (FluxCT_fluxes cb (filled s1 s2 s3)) p k j (i + 1) =
     F1 (FluxCT_fluxes cb (filled t1 t2 t3)) p k j (i + 1) /\
   F2 (FluxCT_fluxes cb (filled s1 s2 s3)) p k (j + 1) i =
     F2 (FluxCT_fluxes cb (filled t1 t2 t3)) p k (j + 1) i /\
   F3 (FluxCT_fluxes cb (filled s1 s2 s3)) p (k + 1) j i =
     F3 (FluxCT_fluxes cb (filled t1 t2 t3)) p (k + 1) j i).
Proof.
  intros Hint filled.
  assert (Hnear : forall q k' j' i',
            k - 1 <= k' <= k + 1 -> j - 1 <= j' <= j + 1 -> i - 1 <= i' <= i + 1 ->
            F1 (filled s1 s2 s3) q k' j' i' = F1 (filled t1 t2 t3) q k' j' i' /\
            F2 (filled s1 s2 s3) q k' j' i' = F2 (filled t1 t2 t3) q k' j' i' /\
            F3 (filled s1 s2 s3) q k' j' i' = F3 (filled t1 t2 t3) q k' j' i').
  { intros q k' j' i' Hk Hj Hi.
    assert (Hh : halo_face cb k' j' i' = true)
      by (apply halo_face_of_bounds; unfold interior_cell in Hint; lia).
    unfold filled, F1, F2, F3. rewrite !LRToFlux_flux, Hh. auto. }
  split.
  - exact (FluxCT_stencil cb _ _ k j i Hnear p).
  - exact (FluxCT_stencil_upper_faces cb _ _ k j i Hnear p).
Qed.

Lemma LRToFlux_then_FluxCT_forgets_stale_fluxes_witness :
  interior_cell sample_block 2 3 2 /\
  F2 (FluxCT_fluxes sample_block
        (mkFluxes
           (flux (LRToFlux sample_physics sample_junk sample_block tt 2%Q
                    sample_pl sample_pr 1 sample_state))
           (flux (LRToFlux sample_physics sample_junk sample_block tt 2%Q
                    sample_pr sample_pl 2 sample_state))
           (flux (LRToFlux sample_physics sample_junk sample_block tt 2%Q
                    uniform_prims sample_pr 3 sample_state)))) B3 2 4 2 =
  F2 (FluxCT_fluxes sample_block
        (mkFluxes
           (flux (LRToFlux sample_physics sample_junk sample_block tt 2%Q
                    sample_pl sample_pr 1 stale_state))
           (flux (LRToFlux sample_physics sample_junk sample_block tt 2%Q
                    sample_pr sample_pl 2 stale_state))
           (flux (LRToFlux sample_physics sample_junk sample_block tt 2%Q
                    uniform_prims sample_pr 3 stale_state)))) B3 2 4 2.
Proof.
  assert (Hint : interior_cell sample_block 2 3 2)
    by (unfold interior_cell; simpl; lia).
  split; [exact Hint|].
  exact (proj1 (proj2 (proj2
    (LRToFlux_then_FluxCT_forgets_stale_fluxes sample_physics sample_junk
       sample_block tt 2%Q sample_pl sample_pr sample_pr sample_pl
       uniform_prims sample_pr
       sample_state sample_state sample_state
       stale_state stale_state stale_state B3 2 3 2 Hint)))).
Defined.

(** ** [LRToFlux]: the stored speed, directions, schedules *)

Lemma ctop_of_least (cmaxL cminL cmaxR cminR c : Real) :
  (0 <= c -> cmaxL <= c -> cmaxR <= c -> - cminL <= c -> - cminR <= c ->
   ctop_of cmaxL cminL cmaxR cminR <= c)%Q.
Proof.
  intros H0 H1 H2 H3 H4. unfold ctop_of.
  assert (Z0 : (0.0 <= c)%Q) by lra.
  apply Q.max_lub; apply Qabs_Qle_condition; split.
  - pose proof (Q.le_max_l (Qmax 0.0 cmaxL) cmaxR).
    pose proof (Q.le_max_l 0.0 cmaxL). lra.
  - repeat apply Q.max_lub; assumption.
  - pose proof (Q.le_max_l (Qmax 0.0 (- cminL)) (- cminR)).
    pose proof (Q.le_max_l 0.0 (- cminL)). lra.
  - repeat apply Q.max_lub; assumption.
Qed.

(** X7.  At every face of the range the loop covers, the stored speed is
    exactly the largest of 0, cmaxL, cmaxR, -cminL and -cminR: it bounds
    each of the five and lies below every other number that does. *)
Theorem LRToFlux_ctop_is_largest_speed (phys : PhysicsLayer) (junk : Indeterminate)
    (cb : IndexShape) (G : GRCoordinates phys) (gamma : Real)
    (pl pr : GridVars) (dir : Z) (s : FluxState)
    (k j i kl jl il : Z) (cmaxL cminL cmaxR cminR : Real) :
  cb_ks cb interior - 1 <= k <= cb_ke cb interior + 1 ->
  cb_js cb interior - 1 <= j <= cb_je cb interior + 1 ->
  cb_is cb interior - 1 <= i <= cb_ie cb interior + 1 ->
  left_after_switch junk dir k j i = (kl, jl, il) ->
  let eos := CreateEOS phys gamma in
  let loc := loc_after_switch junk dir in
  mhd_vchar phys G pl (get_state phys G pl kl jl il loc) eos kl jl il loc dir
    = (cmaxL, cminL) ->
  mhd_vchar phys G pr (get_state phys G pr k j i loc) eos k j i loc dir
    = (cmaxR, cminR) ->
  let ctop' := ctop (LRToFlux phys junk cb G gamma pl pr dir s) dir k j i in
  (0 <= ctop' /\ cmaxL <= ctop' /\ cmaxR <= ctop' /\
   - cminL <= ctop' /\ - cminR <= ctop')%Q /\
  (forall c : Real,
     0 <= c -> cmaxL <= c -> cmaxR <= c -> - cminL <= c -> - cminR <= c ->
     ctop' <= c)%Q.
Proof.
  intros Hk Hj Hi Hleft eos loc HvL HvR ctop'.
  assert (E : ctop' = ctop_of cmaxL cminL cmaxR cminR).
  { unfold ctop'. rewrite LRToFlux_ctop, Z.eqb_refl,
      (halo_face_of_bounds cb k j i Hk Hj Hi).
    unfold stored_ctop. rewrite Hleft.
    simpl. unfold face_ctop. fold eos. fold loc. now rewrite HvL, HvR. }
  rewrite E. split.
  - split; [apply ctop_of_nonneg | apply ctop_of_upper].
  - intros c. apply ctop_of_least.
Qed.

Lemma LRToFlux_ctop_is_largest_speed_witness :
  (ctop (LRToFlux sample_physics sample_junk sample_block tt 2%Q
           sample_pl sample_pr 2 sample_state) 2 3 1 4 <= 21)%Q.
Proof.
  assert (Hk : cb_ks sample_block interior - 1 <= 3 <= cb_ke sample_block interior + 1)
    by (simpl; lia).
  assert (Hj : cb_js sample_block interior - 1 <= 1 <= cb_je sample_block interior + 1)
    by (simpl; lia).
  assert (Hi : cb_is sample_block interior - 1 <= 4 <= cb_ie sample_block interior + 1)
    by (simpl; lia).
  apply (proj2 (LRToFlux_ctop_is_largest_speed sample_physics sample_junk
                  sample_block tt 2%Q sample_pl sample_pr 2 sample_state
                  3 1 4 3 0 4 21%Q (- (21))%Q 4%Q (- (4))%Q
                  Hk Hj Hi eq_refl eq_refl eq_refl) 21%Q);
    vm_compute; discriminate.
Defined.

(** X8.  Calls of [LRToFlux] for two different directions do not disturb
    each other's speeds: whichever call runs first, the speed field ends up
    the same, at every slot and location. *)
Theorem LRToFlux_directions_commute_on_ctop (phys : PhysicsLayer)
    (junk : Indeterminate) (cb : IndexShape) (G : GRCoordinates phys)
    (gamma : Real) (pl1 pr1 pl2 pr2 : GridVars) (dir1 dir2 : Z)
    (s : FluxState) (d k j i : Z) :
  dir1 <> dir2 ->
  ctop (LRToFlux phys junk cb G gamma pl1 pr1 dir1
          (LRToFlux phys junk cb G gamma pl2 pr2 dir2 s)) d k j i =
  ctop (LRToFlux phys junk cb G gamma pl2 pr2 dir2
          (LRToFlux phys junk cb G gamma pl1 pr1 dir1 s)) d k j i.
Proof.
  intros Hne. rewrite !LRToFlux_ctop.
  destruct (d =? dir1) eqn:E1, (d =? dir2) eqn:E2; simpl; try reflexivity.
  apply Z.eqb_eq in E1, E2. congruence.
Qed.

Lemma LRToFlux_directions_commute_on_ctop_witness :
  1 <> 3 /\
  ctop (LRToFlux sample_physics sample_junk sample_block tt 2%Q sample_pl sample_pr 1
          (LRToFlux sample_physics sample_junk sample_block tt 2%Q
             sample_pr sample_pl 3 sample_state)) 3 2 2 2 =
  ctop (LRToFlux sample_physics sample_junk sample_block tt 2%Q sample_pr sample_pl 3
          (LRToFlux sample_physics sample_junk sample_block tt 2%Q
             sample_pl sample_pr 1 sample_state)) 3 2 2 2.
Proof.
  assert (H : 1 <> 3) by discriminate.
  split; [exact H|].
  exact (LRToFlux_directions_commute_on_ctop sample_physics sample_junk
           sample_block tt 2%Q sample_pl sample_pr sample_pr sample_pl 1 3
           sample_state 3 2 2 2 H).
Defined.

(** Two calls for the same direction do not commute: the later one wins. *)
Example LRToFlux_same_direction_last_call_wins :
  ~ Qeq
      (ctop (LRToFlux sample_physics sample_junk sample_block tt 2%Q sample_pl sample_pr 1
               (LRToFlux sample_physics sample_junk sample_block tt 2%Q
                  sample_pr sample_pl 1 sample_state)) 1 2 2 2)
      (ctop (LRToFlux sample_physics sample_junk sample_block tt 2%Q sample_pr sample_pl 1
               (LRToFlux sample_physics sample_junk sample_block tt 2%Q
                  sample_pl sample_pr 1 sample_state)) 1 2 2 2).
Proof. vm_compute. discriminate. Qed.

Lemma LRToFlux_consistency_equal_primitives_witness :
  Qeq (flux (LRToFlux sample_physics sample_junk sample_block tt 2%Q
               uniform_prims uniform_prims 3 sample_state) u1 1 2 3)
      (prim_to_flux sample_physics tt uniform_prims
         (get_state sample_physics tt uniform_prims 1 2 3 face3) 2%Q 1 2 3 face3 3 u1).
Proof.
  exact (LRToFlux_consistency_equal_primitives sample_physics sample_junk
           sample_block tt 2%Q uniform_prims uniform_prims 3 sample_state u1
           1 2 3 0 2 3 sample_physics_position_independent
           eq_refl eq_refl (fun q => eq_refl)).
Defined.

(** X10.  The three kernels are insensitive to the order in which the
    parallel loop hands them the cells, and to a cell being handed twice:
    two schedules that visit the same cells leave the same EMFs, the same
    fluxes and the same speeds. *)
Theorem kernels_schedule_independent (phys : PhysicsLayer) (junk : Indeterminate)
    (G : GRCoordinates phys) (eos : EOS phys) (pl pr : GridVars) (dir : Z)
    (loc : Loci) (s : FluxState) (Fin : Fluxes) (e0 e : EMFs) (F : Fluxes)
    (cells cells' : list (Z * Z * Z)) (p : prims) (d k j i : Z) :
  (forall c, In c cells <-> In c cells') ->
  (emf1 (run_kernel (flux_ct_emf_kernel Fin) cells e0) k j i =
     emf1 (run_kernel (flux_ct_emf_kernel Fin) cells' e0) k j i /\
   emf2 (run_kernel (flux_ct_emf_kernel Fin) cells e0) k j i =
     emf2 (run_kernel (flux_ct_emf_kernel Fin) cells' e0) k j i /\
   emf3 (run_kernel (flux_ct_emf_kernel Fin) cells e0) k j i =
     emf3 (run_kernel (flux_ct_emf_kernel Fin) cells' e0) k j i) /\
  (F1 (run_kernel (flux_ct_kernel e) cells F) p k j i =
     F1 (run_kernel (flux_ct_kernel e) cells' F) p k j i /\
   F2 (run_kernel (flux_ct_kernel e) cells F) p k j i =
     F2 (run_kernel (flux_ct_kernel e) cells' F) p k j i /\
   F3 (run_kernel (flux_ct_kernel e) cells F) p k j i =
     F3 (run_kernel (flux_ct_kernel e) cells' F) p k j i) /\
  (flux (run_kernel (uber_flux_kernel phys junk G eos pl pr dir loc) cells s) p k j i =
     flux (run_kernel (uber_flux_kernel phys junk G eos pl pr dir loc) cells' s) p k j i /\
   ctop (run_kernel (uber_flux_kernel phys junk G eos pl pr dir loc) cells s) d k j i =
     ctop (run_kernel (uber_flux_kernel phys junk G eos pl pr dir loc) cells' s) d k j i).
Proof.
  intros Hsame.
  assert (V : visits cells' k j i = visits cells k j i).
  { apply eq_true_iff_eq. rewrite !visits_In. symmetry. apply Hsame. }
  rewrite !emf_kernel_emf1, !emf_kernel_emf2, !emf_kernel_emf3,
    !rewrite_kernel_F1, !rewrite_kernel_F2, !rewrite_kernel_F3,
    !uber_flux_loop_flux, !uber_flux_loop_ctop, V.
  auto 10.
Qed.

Lemma kernels_schedule_independent_witness :
  F1 (run_kernel (flux_ct_kernel (flux_ct_emf_pass sample_block sample_fluxes))
        (box 0 1 0 1 0 1) sample_fluxes) B2 1 0 1 =
  F1 (run_kernel (flux_ct_kernel (flux_ct_emf_pass sample_block sample_fluxes))
        (rev (box 0 1 0 1 0 1)) sample_fluxes) B2 1 0 1.
Proof.
  exact (proj1 (proj1 (proj2
    (kernels_schedule_independent sample_physics sample_junk tt 2%Q
       sample_pl sample_pr 1 face1 sample_state sample_fluxes
       (mkEMFs (new_GridScalar 6 6 6) (new_GridScalar 6 6 6) (new_GridScalar 6 6 6))
       (flux_ct_emf_pass sample_block sample_fluxes) sample_fluxes
       (box 0 1 0 1 0 1) (rev (box 0 1 0 1 0 1)) B2 1 1 0 1
       (fun c => in_rev (box 0 1 0 1 0 1) c))))).
Defined.

(** ** The stage task list never stalls *)

Module HARMDriverProgress.

Import HARMDriver.
Open Scope N_scope.

(** A dependency satisfied by part of what has completed is satisfied. *)
Lemma subset_trans_check (e done dep : TaskID) :
  subset e done = true -> CheckDependencies e dep = true ->
  CheckDependencies done dep = true.
Proof.
  unfold subset, CheckDependencies. rewrite !N.eqb_eq. intros H1 H2.
  apply N.bits_inj. intros n.
  pose proof (f_equal (fun x => N.testbit x n) H1) as B1.
  pose proof (f_equal (fun x => N.testbit x n) H2) as B2.
  simpl in B1, B2. rewrite N.land_spec in *.
  destruct (N.testbit e n), (N.testbit done n), (N.testbit dep n);
    simpl in *; congruence.
Qed.

Lemma subset_lor (a b done : TaskID) :
  subset a done = true -> subset b done = true ->
  subset (N.lor a b) done = true.
Proof.
  unfold subset. rewrite !N.eqb_eq. intros H1 H2.
  apply N.bits_inj. intros n.
  pose proof (f_equal (fun x => N.testbit x n) H1) as B1.
  pose proof (f_equal (fun x => N.testbit x n) H2) as B2.
  simpl in B1, B2. rewrite ?N.land_spec, ?N.lor_spec in *.
  destruct (N.testbit a n), (N.testbit b n), (N.testbit done n);
    simpl in *; congruence.
Qed.

(** Run in the order added, each task finds its dependency among the tasks
    before it. *)
Lemma run_in_order_prefix (pre : list Task) :
  forall acc t post done,
    run_in_order acc (pre ++ t :: post) = Some done ->
    CheckDependencies
      (fold_left (fun a t' => N.lor a (task_id t')) pre acc) (task_dep t) = true.
Proof.
  induction pre as [|t0 pre IH]; intros acc t post done H; simpl in H.
  - simpl. destruct (N.land acc (task_id t) =? 0); [|discriminate].
    now destruct (CheckDependencies acc (task_dep t)).
  - destruct ((N.land acc (task_id t0) =? 0) && CheckDependencies acc (task_dep t0));
      [|discriminate].
    simpl. exact (IH _ t post done H).
Qed.

Lemma prefix_ids_done (pre : list Task) (done : TaskID) :
  (forall t, In t pre -> subset (task_id t) done = true) ->
  forall acc, subset acc done = true ->
    subset (fold_left (fun a t' => N.lor a (task_id t')) pre acc) done = true.
Proof.
  induction pre as [|t0 pre IH]; intros Hpre acc Hacc; simpl.
  - exact Hacc.
  - apply IH.
    + intros t Ht. apply Hpre. now right.
    + apply subset_lor; [assumption|]. apply Hpre. now left.
Qed.

(** The first task of the list that is not in the trace. *)
Lemma first_not_run (tl : TaskList) (trace : list Task) :
  (exists t, In t tl /\ ~ In t trace) ->
  exists pre t post,
    tl = pre ++ t :: post /\ ~ In t trace /\ forall t', In t' pre -> In t' trace.
Proof.
  induction tl as [|t0 tl IH]; intros (t & Ht & Hn).
  - destruct Ht.
  - destruct (in_dec Task_eq_dec t0 trace) as [Hin | Hout].
    + destruct Ht as [-> | Ht]; [contradiction|].
      destruct (IH (ex_intro _ t (conj Ht Hn))) as (pre & t1 & post & -> & H1 & H2).
      exists (t0 :: pre), t1, post. repeat split; auto.
      intros t' [<- | Ht']; auto.
    + exists [], t0, tl. repeat split; auto. intros t' [].
Qed.

Lemma runs_not_run_disjoint (tl : TaskList) (done : TaskID) (trace : list Task) :
  distinct_ids tl = true -> runs tl done trace ->
  forall t, In t tl -> ~ In t trace -> N.land done (task_id t) = 0.
Proof.
  intros ids_ok. induction 1 as [|done trace t0 Hruns IH Ht0 Hnew Hdep];
    intros t Ht Hn.
  - apply N.land_0_l.
  - rewrite N.land_comm, N.land_lor_distr_r.
    assert (Hn' : ~ In t trace) by (intros Hin; apply Hn, in_or_app; now left).
    rewrite (N.land_comm (task_id t) done), (IH t Ht Hn'). simpl.
    destruct (HARMDriverFacts.distinct_ids_spec tl ids_ok t Ht) as [_ Hd].
    destruct (Hd t0 Ht0) as [-> | Hdisj]; [|exact Hdisj].
    exfalso. apply Hn, in_or_app. right. now left.
Qed.

(** A list that can be run in the order it was built never stalls: as long
    as some task has not run, some task can start. *)
Lemma runs_progress (tl : TaskList) (all done : TaskID) (trace : list Task) :
  distinct_ids tl = true ->
  run_in_order 0 tl = Some all ->
  runs tl done trace ->
  (exists t, In t tl /\ ~ In t trace) ->
  exists t, In t tl /\ ~ In t trace /\
            runs tl (N.lor done (task_id t)) (trace ++ [t]).
Proof.
  intros ids_ok Hord Hruns Hleft.
  destruct (first_not_run tl trace Hleft) as (pre & t & post & E & Hn & Hpre).
  assert (Ht : In t tl) by (rewrite E; apply in_or_app; right; now left).
  exists t. split; [exact Ht|]. split; [exact Hn|].
  apply runs_step; auto.
  - exact (runs_not_run_disjoint tl done trace ids_ok Hruns t Ht Hn).
  - rewrite E in Hord.
    apply (subset_trans_check
             (fold_left (fun a t' => N.lor a (task_id t')) pre 0)).
    + apply prefix_ids_done; [|reflexivity].
      intros t' Ht'.
      exact (HARMDriverFacts.runs_trace_completed tl done trace Hruns t' (Hpre t' Ht')).
    + exact (run_in_order_prefix pre 0 t post all Hord).
Qed.

Lemma runs_length (tl : TaskList) (done : TaskID) (trace : list Task) :
  distinct_ids tl = true -> runs tl done trace ->
  (length trace <= length tl)%nat.
Proof.
  intros ids_ok Hruns. apply NoDup_incl_length.
  - exact (HARMDriverFacts.runs_NoDup tl done trace ids_ok Hruns).
  - intros t. exact (HARMDriverFacts.runs_trace_in_list tl done trace Hruns t).
Qed.

Lemma MakeTaskList_shapes (nstages : Z) (adaptive : bool) (stage : Z) :
  MakeTaskList nstages adaptive stage = MakeTaskList 2 false 1 \/
  MakeTaskList nstages adaptive stage = MakeTaskList 2 false 2 \/
  MakeTaskList nstages adaptive stage = MakeTaskList 2 true 2.
Proof.
  unfold MakeTaskList.
  destruct (stage =? nstages)%Z; [destruct adaptive|]; cbv; auto.
Qed.

Lemma MakeTaskList_runs_in_order (nstages : Z) (adaptive : bool) (stage : Z) :
  distinct_ids (MakeTaskList nstages adaptive stage) = true /\
  exists all, run_in_order 0 (MakeTaskList nstages adaptive stage) = Some all.
Proof.
  destruct (MakeTaskList_shapes nstages adaptive stage) as [-> | [-> | ->]];
    (split; [vm_compute; reflexivity | eexists; vm_compute; reflexivity]).
Qed.

Close Scope N_scope.

End HARMDriverProgress.

(** X11.  The task list of every stage can always be run to the end: in
    any state reached by running tasks as their dependencies allow, no more
    tasks have run than the list holds, and as long as a task of the list
    has not run, one of those can start next. *)
Theorem MakeTaskList_never_stalls (nstages : Z) (adaptive : bool) (stage : Z)
    (done : HARMDriver.TaskID) (trace : list HARMDriver.Task) :
  HARMDriver.runs (HARMDriver.MakeTaskList nstages adaptive stage) done trace ->
  (length trace <= length (HARMDriver.MakeTaskList nstages adaptive stage))%nat /\
  ((exists t, In t (HARMDriver.MakeTaskList nstages adaptive stage) /\ ~ In t trace) ->
   exists t, In t (HARMDriver.MakeTaskList nstages adaptive stage) /\ ~ In t trace /\
             HARMDriver.runs (HARMDriver.MakeTaskList nstages adaptive stage)
               (N.lor done (HARMDriver.task_id t)) (trace ++ [t])).
Proof.
  intros Hruns.
  destruct (HARMDriverProgress.MakeTaskList_runs_in_order nstages adaptive stage)
    as (Hids & all & Hord).
  split.
  - exact (HARMDriverProgress.runs_length _ done trace Hids Hruns).
  - exact (HARMDriverProgress.runs_progress _ all done trace Hids Hord Hruns).
Qed.

Lemma MakeTaskList_never_stalls_witness :
  (length (@nil HARMDriver.Task) <= length (HARMDriver.MakeTaskList 2 false 1))%nat.
Proof.
  exact (proj1 (MakeTaskList_never_stalls 2 false 1 0%N []
                  (HARMDriver.runs_start _))).
Defined.

(** X12.  The stage's list has the eighteen tasks common to all stages; the
    timestep estimate is added on the last stage only, the refinement check
    on the last stage of an adaptive mesh only, and each of the two waits
    for primitive recovery and is preceded by it in every run. *)
Theorem MakeTaskList_last_stage_tasks (nstages : Z) (adaptive : bool) (stage : Z) :
  let tl := HARMDriver.MakeTaskList nstages adaptive stage in
  let last := stage =? nstages in
  length tl =
    (18 + (if last then 1 else 0) + (if last && adaptive then 1 else 0))%nat /\
  length (HARMDriver.tasks_of tl HARMDriver.SetBlockTimestep) =
    (if last then 1 else 0)%nat /\
  length (HARMDriver.tasks_of tl HARMDriver.CheckRefinementCondition) =
    (if last && adaptive then 1 else 0)%nat /\
  HARMDriver.dep_of tl HARMDriver.SetBlockTimestep =
    (if last then HARMDriver.ids_of tl HARMDriver.FillDerived else 0%N) /\
  HARMDriver.dep_of tl HARMDriver.CheckRefinementCondition =
    (if last && adaptive then HARMDriver.ids_of tl HARMDriver.FillDerived else 0%N) /\
  (forall done trace, HARMDriver.runs tl done trace ->
     HARMDriver.ran_before trace HARMDriver.FillDerived HARMDriver.SetBlockTimestep /\
     HARMDriver.ran_before trace HARMDriver.FillDerived
       HARMDriver.CheckRefinementCondition).
Proof.
  cbv zeta. unfold HARMDriver.MakeTaskList.
  destruct (stage =? nstages); [destruct adaptive|];
    (repeat (split; [vm_compute; reflexivity|]);
     intros done trace Hruns;
     split;
     (eapply HARMDriverFacts.depends_directly_ran_before;
      [ | | exact Hruns]; vm_compute; reflexivity)).
Qed.

Lemma MakeTaskList_last_stage_tasks_witness :
  HARMDriver.ran_before (HARMDriver.MakeTaskList 2 true 2)
    HARMDriver.FillDerived HARMDriver.SetBlockTimestep.
Proof.
  destruct (MakeTaskList_last_stage_tasks 2 true 2) as (_ & _ & _ & _ & _ & H).
  exact (proj1 (H _ _ HARMDriverFacts.final_stage_runs_in_order)).
Defined.

(** ** Package selection *)

Module ParthenonManagerFacts.

Import String.
Local Open Scope string_scope.

(** X13.  Whatever the parameter input and the routines that read it,
    [ProcessPackages] reads four flags through the parameter input, in the
    order Packages/GRMHD (default true), GRHD, howes_electrons and scalars
    (default false), each read handing on the parameter input the one
    before left.  When the first flag comes back true it returns the GRMHD
    package alone, built by [Initialize] from the parameter input left by
    the fourth read, and the parameter input [Initialize] leaves; otherwise
    it returns no package and the parameter input left by the fourth read.
    The last three flags select nothing. *)
Theorem ProcessPackages_selects_GRMHD_only
    (ParameterInput StateDescriptor : Type)
    (GetOrAddBoolean :
       string -> string -> bool -> ParameterInput ->
       bool * ParameterInput)
    (Initialize : ParameterInput -> StateDescriptor * ParameterInput)
    (pin : ParameterInput) :
  let r1 := GetOrAddBoolean "Packages" "GRMHD" true pin in
  let r2 := GetOrAddBoolean "Packages" "GRHD" false (snd r1) in
  let r3 := GetOrAddBoolean "Packages" "howes_electrons" false (snd r2) in
  let r4 := GetOrAddBoolean "Packages" "scalars" false (snd r3) in
  ParthenonManager.ProcessPackages ParameterInput StateDescriptor
    GetOrAddBoolean Initialize pin =
  if fst r1
  then ([("GRMHD", fst (Initialize (snd r4)))], snd (Initialize (snd r4)))
  else ([], snd r4).
Proof.
  cbv zeta. unfold ParthenonManager.ProcessPackages.
  destruct (GetOrAddBoolean "Packages" "GRMHD" true pin)
    as [do_grmhd pin1].
  simpl fst. simpl snd.
  destruct (GetOrAddBoolean "Packages" "GRHD" false pin1)
    as [do_grhd pin2].
  simpl snd.
  destruct (GetOrAddBoolean "Packages" "howes_electrons" false pin2)
    as [do_electrons pin3].
  simpl snd.
  destruct (GetOrAddBoolean "Packages" "scalars" false pin3)
    as [do_scalars pin4].
  simpl snd. destruct do_grmhd.
  - now destruct (Initialize pin4).
  - now destruct do_grhd.
Qed.

(** With the list-backed parameter input, an empty input comes back holding
    the four flags at their defaults, in the order they were read. *)
Example sample_flags_are_read_in_order :
  snd (ParthenonManager.ProcessPackages _ _
         ParthenonManager.sample_GetOrAddBoolean ParthenonManager.sample_Initialize
         []) =
  [("Packages", "GRMHD", true); ("Packages", "GRHD", false);
   ("Packages", "howes_electrons", false); ("Packages", "scalars", false)].
Proof. vm_compute. reflexivity. Qed.

(** With the list-backed parameter input: an input that asks for GRHD and
    switches GRMHD off gets no package; an empty input gets GRMHD. *)
Example sample_GRHD_alone_loads_nothing :
  fst (ParthenonManager.ProcessPackages _ _
         ParthenonManager.sample_GetOrAddBoolean ParthenonManager.sample_Initialize
         [("Packages", "GRMHD", false);
          ("Packages", "GRHD", true)]) = [] /\
  map fst
    (fst (ParthenonManager.ProcessPackages _ _
            ParthenonManager.sample_GetOrAddBoolean ParthenonManager.sample_Initialize
            [])) = ["GRMHD"].
Proof. split; vm_compute; reflexivity. Qed.

End ParthenonManagerFacts.

(** ** [FluxCT]: how far the divergence-free update reaches *)

(** X14.  Ghost cells included, the rewritten fluxes give a zero rate of
    change of the corner-centred divergence of B, and a zero sum of the
    face-normal magnetic flux components, at every cell that is neither in
    the first layer nor in the last two layers of the block in any
    direction, whatever the input fluxes and the number of ghost layers. *)
Theorem FluxCT_divergence_free_away_from_edges (cb : IndexShape) (rc : Fluxes)
    (w1 w2 w3 : Real) (k j i : Z) :
  cb_ks cb entire + 1 <= k <= cb_ke cb entire - 2 ->
  cb_js cb entire + 1 <= j <= cb_je cb entire - 2 ->
  cb_is cb entire + 1 <= i <= cb_ie cb entire - 2 ->
  (divB w1 w2 w3 (flux_divergence w1 w2 w3 (FluxCT_fluxes cb rc)) k j i == 0 /\
   normal_flux_sum w1 w2 w3 (FluxCT_fluxes cb rc) k j i == 0)%Q.
Proof.
  intros Hk Hj Hi.
  unfold cb_ks, cb_ke, cb_js, cb_je, cb_is, cb_ie in Hk, Hj, Hi.
  assert (Hnear : forall k' j' i',
            k - 1 <= k' <= k + 1 -> j - 1 <= j' <= j + 1 -> i - 1 <= i' <= i + 1 ->
            rewritten_cell cb k' j' i' = true)
    by (apply (FluxCT_curl_near cb rc k j i); lia).
  assert (C1 : forall p k' j' i', is_magnetic p = true ->
            k - 1 <= k' <= k + 1 -> j - 1 <= j' <= j + 1 -> i - 1 <= i' <= i + 1 ->
            F1 (FluxCT_fluxes cb rc) p k' j' i' =
            rewritten1 (flux_ct_emf_pass cb rc) p k' j' i').
  { intros p k' j' i' Hp Hk' Hj' Hi'. now rewrite FluxCT_F1, Hp, Hnear. }
  assert (C2 : forall p k' j' i', is_magnetic p = true ->
            k - 1 <= k' <= k + 1 -> j - 1 <= j' <= j + 1 -> i - 1 <= i' <= i + 1 ->
            F2 (FluxCT_fluxes cb rc) p k' j' i' =
            rewritten2 (flux_ct_emf_pass cb rc) p k' j' i').
  { intros p k' j' i' Hp Hk' Hj' Hi'. now rewrite FluxCT_F2, Hp, Hnear. }
  assert (C3 : forall p k' j' i', is_magnetic p = true ->
            k - 1 <= k' <= k + 1 -> j - 1 <= j' <= j + 1 -> i - 1 <= i' <= i + 1 ->
            F3 (FluxCT_fluxes cb rc) p k' j' i' =
            rewritten3 (flux_ct_emf_pass cb rc) p k' j' i').
  { intros p k' j' i' Hp Hk' Hj' Hi'. now rewrite FluxCT_F3, Hp, Hnear. }
  split.
  - exact (curl_divB_rate w1 w2 w3 _ _ k j i C1 C2 C3).
  - exact (curl_normal_flux_sum w1 w2 w3 _ _ k j i C1 C2 C3).
Qed.

Lemma FluxCT_divergence_free_away_from_edges_witness :
  (divB 2 3 5 (flux_divergence 2 3 5 (FluxCT_fluxes sample_block sample_fluxes)) 1 3 1
   == 0)%Q.
Proof.
  assert (H1 : cb_ks sample_block entire + 1 <= 1 <= cb_ke sample_block entire - 2)
    by (simpl; lia).
  assert (H3 : cb_js sample_block entire + 1 <= 3 <= cb_je sample_block entire - 2)
    by (simpl; lia).
  exact (proj1 (FluxCT_divergence_free_away_from_edges sample_block sample_fluxes
                  2%Q 3%Q 5%Q 1 3 1 H1 H3 H1)).
Defined.

(** The range is sharp: one layer further down or up the sum is not zero. *)
Example sample_divergence_at_block_edges :
  ~ (divB 1 1 1 (flux_divergence 1 1 1
       (FluxCT_fluxes sample_block sample_fluxes)) 0 1 1 == 0)%Q /\
  ~ (divB 1 1 1 (flux_divergence 1 1 1
       (FluxCT_fluxes sample_block sample_fluxes)) 4 3 3 == 0)%Q.
Proof. split; vm_compute; discriminate. Qed.
